(** * envconsul: the runner's environment builder and event loop

    A shallow embedding of [runner.go] (the [Runner] type with [Run],
    [appendPrefixes], [appendSecrets], [appendServices], [applyConfigEnv],
    [init] and the [Start] loop) and of [Parse]/[Must] from [config.go],
    followed by the properties of the specification that concern them.

    Conventions of the embedding:
    - a Go [string] is a sequence of bytes: Rocq's [string];
    - a Go [map[string]T] is a [gmap string T]; the order in which a
      [range] statement visits a map is not fixed by the language, so it is
      an explicit argument ([MapOrder]);
    - a nil pointer or nil map is [None]; a run-time panic is the [Panic]
      outcome;
    - libraries outside the repository (html/template, path/filepath's
      [Match], the dependency and child packages, hcl and mapstructure)
      are the fields of two classes, [Libs] and [ConfigLibs]; the module
      [Sample] instantiates them to run the model on examples. *)

From Stdlib Require Import ZArith NArith Ascii String DecimalString.
From stdpp Require Import base option list strings gmap fin_maps.

Local Open Scope string_scope.
Local Open Scope Z_scope.

(** ** Outcomes: a result, or a run-time panic *)

Inductive Outcome (A : Type) : Type :=
| Done (a : A)
| Panic (msg : string).
Arguments Done {A} a.
Arguments Panic {A} msg.

#[global] Instance Outcome_ret : MRet Outcome := λ A a, Done a.
#[global] Instance Outcome_bind : MBind Outcome := λ A B f m,
  match m with
  | Done a => f a
  | Panic msg => Panic msg
  end.

#[global] Instance Outcome_fmap : FMap Outcome := λ A B f m,
  match m with
  | Done a => Done (f a)
  | Panic msg => Panic msg
  end.

Definition panics {A} (m : Outcome A) : bool :=
  match m with Panic _ => true | Done _ => false end.

(** A Go [error] is the message it carries; [None] is the nil error. *)
Definition error := option string.

(** A pair [(x, err)] of which one side is set. *)
Inductive Result (A : Type) : Type :=
| Ok (a : A)
| Err (msg : string).
Arguments Ok {A} a.
Arguments Err {A} msg.

#[global] Instance Result_ret : MRet Result := λ A a, Ok a.
#[global] Instance Result_fmap : FMap Result := λ A B f m,
  match m with
  | Ok a => Ok (f a)
  | Err msg => Err msg
  end.
#[global] Instance Result_bind : MBind Result := λ A B f m,
  match m with
  | Ok a => f a
  | Err msg => Err msg
  end.

(** ** The Go standard library on strings *)

Module GoString.

Definition byte (c : ascii) : N := N_of_ascii c.

Definition in_range (lo hi : N) (c : ascii) : bool :=
  ((lo <=? byte c) && (byte c <=? hi))%N.

Definition RuneError : N := 65533.

(** The six payload bits of a continuation byte. *)
Definition cont (c : ascii) : N := N.land (byte c) 63.

(** [utf8.DecodeRuneInString]: the rune at the head of [s] and its width
    in bytes; an invalid or short encoding is [RuneError] of width 1. The
    cases follow the [first] and [acceptRanges] tables of unicode/utf8. *)
Definition DecodeRuneInString (s : string) : N * nat :=
  match s with
  | EmptyString => (RuneError, 0%nat)
  | String s0 t =>
    let b := byte s0 in
    if (b <? 128)%N then (b, 1%nat)
    else
      let '(sz, lo, hi) :=
        if in_range 194 223 s0 then (2%nat, 128%N, 191%N)
        else if (b =? 224)%N then (3%nat, 160%N, 191%N)
        else if in_range 225 236 s0 then (3%nat, 128%N, 191%N)
        else if (b =? 237)%N then (3%nat, 128%N, 159%N)
        else if in_range 238 239 s0 then (3%nat, 128%N, 191%N)
        else if (b =? 240)%N then (4%nat, 144%N, 191%N)
        else if in_range 241 243 s0 then (4%nat, 128%N, 191%N)
        else if (b =? 244)%N then (4%nat, 128%N, 143%N)
        else (1%nat, 0%N, 0%N) in
      match sz, t with
      | 2%nat, String s1 _ =>
        if in_range lo hi s1
        then (N.lor (N.shiftl (N.land b 31) 6) (cont s1), 2%nat)
        else (RuneError, 1%nat)
      | 3%nat, String s1 (String s2 _) =>
        if in_range lo hi s1 && in_range 128 191 s2
        then (N.lor (N.shiftl (N.land b 15) 12)
                (N.lor (N.shiftl (cont s1) 6) (cont s2)), 3%nat)
        else (RuneError, 1%nat)
      | 4%nat, String s1 (String s2 (String s3 _)) =>
        if in_range lo hi s1 && in_range 128 191 s2 && in_range 128 191 s3
        then (N.lor (N.shiftl (N.land b 7) 18)
                (N.lor (N.shiftl (cont s1) 12)
                   (N.lor (N.shiftl (cont s2) 6) (cont s3))), 4%nat)
        else (RuneError, 1%nat)
      | _, _ => (RuneError, 1%nat)
      end
  end.

(** The runes of a string, each with the bytes that encode it. [skip]
    counts the bytes of the current rune still to be passed over. *)
Fixpoint runes_from (skip : nat) (s : string) : list (N * string) :=
  match s with
  | EmptyString => []
  | String c t =>
    match skip with
    | S k => runes_from k t
    | O =>
      let '(r, w) := DecodeRuneInString s in
      (r, substring 0 w s) :: runes_from (Nat.pred w) t
    end
  end.

Definition runes (s : string) : list (N * string) := runes_from 0 s.

(** [unicode.IsSpace]. *)
Definition IsSpace (r : N) : bool :=
  ((9 <=? r) && (r <=? 13) || (r =? 32) || (r =? 133) || (r =? 160)
   || (r =? 5760) || (8192 <=? r) && (r <=? 8202)
   || (r =? 8232) || (r =? 8233) || (r =? 8239) || (r =? 8287)
   || (r =? 12288))%N.

(** [strings.TrimSpace(s) == ""]: every rune of [s] is white space. *)
Definition TrimSpace_is_empty (s : string) : bool :=
  forallb (λ rb, IsSpace rb.1) (runes s).

(** [strings.ToUpper]: byte-wise on an ASCII string; a string with a
    byte of 128 or more goes through [strings.Map(unicode.ToUpper, s)],
    whose case tables are an argument. *)
Definition upper_byte (c : ascii) : ascii :=
  if in_range 97 122 c then ascii_of_N (byte c - 32) else c.

Fixpoint isASCII (s : string) : bool :=
  match s with
  | EmptyString => true
  | String c t => (byte c <? 128)%N && isASCII t
  end.

Fixpoint map_bytes (f : ascii → ascii) (s : string) : string :=
  match s with
  | EmptyString => EmptyString
  | String c t => String (f c) (map_bytes f t)
  end.

Definition ToUpper (unicodeUpper : string → string) (s : string) : string :=
  if isASCII s then map_bytes upper_byte s else unicodeUpper s.

(** [strings.SplitN(s, "=", 2)]: the text before the first [=] and the
    text after it, or [s] alone when it has none. *)
Fixpoint SplitN_eq_2 (s : string) : list string :=
  match s with
  | EmptyString => [EmptyString]
  | String c t =>
    if Ascii.eqb c "="%char then [EmptyString; t]
    else match SplitN_eq_2 t with
         | a :: rest => String c a :: rest
         | [] => [String c EmptyString]
         end
  end.

(** [strings.Join]. *)
Definition Join (l : list string) (sep : string) : string :=
  String.concat sep l.

(** [strconv.Itoa]. *)
Definition Itoa (n : Z) : string := NilZero.string_of_int (Z.to_int n).

End GoString.

(** [InvalidRegexp] is [[^a-zA-Z0-9_]]; [InvalidRegexp.ReplaceAllString(s,
    "_")] puts one underscore in place of every rune outside the class. *)
Definition valid_key_rune (r : N) : bool :=
  ((48 <=? r) && (r <=? 57) || (65 <=? r) && (r <=? 90)
   || (97 <=? r) && (r <=? 122) || (r =? 95))%N.

Definition InvalidRegexp_ReplaceAllString (s : string) : string :=
  String.concat ""
    (map (λ rb : N * string, if valid_key_rune rb.1 then rb.2 else "_")
       (GoString.runes s)).

(** ** Values of the consul-template config package *)

(** [config.BoolVal], [config.StringVal], [config.StringPresent] and
    [config.TimeDurationVal] read an optional field; nil reads as the zero
    value. *)
Definition BoolVal (b : option bool) : bool := default false b.
Definition StringVal (s : option string) : string := default "" s.
Definition StringPresent (s : option string) : bool :=
  match s with
  | Some x => negb (String.eqb x "")
  | None => false
  end.
Definition is_None_b {A} (x : option A) : bool :=
  match x with None => true | Some _ => false end.
Definition TimeDurationVal (t : option Z) : Z := default 0 t.

(** ** Data received from the stores *)

(** A dynamically typed value ([interface{}]), as a secret holds them and
    as the configuration decoder produces them: nil, a string, a
    [map[string]interface{}], a [[]map[string]interface{}], or a value of
    any other dynamic type (numbers, booleans, other slices), for which
    [VOther] keeps the type's name. *)
#[warnings="-register-all"]
Inductive value : Type :=
| VNil
| VString (s : string)
| VMap (m : gmap string value)
| VMaps (l : list (gmap string value))
| VOther (ty : string).

Definition is_nil (v : option value) : bool :=
  match v with
  | None | Some VNil => true
  | Some _ => false
  end.

Module KeyPair.
Record t := mk { Key : string; Value : string }.
End KeyPair.

Module Secret.
Record t := mk { Data : gmap string value }.
End Secret.

Module CatalogService.
Record t := mk {
  ServiceID : string;
  ServiceName : string;
  ServiceAddress : string;
  ServiceTags : list string;
  ServicePort : Z
}.
End CatalogService.

(** What the watcher hands to [Receive]: the dynamic type of [data]. *)
Inductive Payload : Type :=
| KeyPairs (l : list KeyPair.t)
| SecretData (s : Secret.t)
| CatalogServices (l : list CatalogService.t)
| OtherData (ty : string).

(** The dependencies of the consul-template dependency package that [Run]
    tells apart; each carries the text that identifies its query. *)
Inductive Dependency : Type :=
| KVListQuery (prefix : string)
| VaultReadQuery (path : string)
| CatalogServiceQuery (name : string)
| OtherQuery (id : string).

#[global] Instance Dependency_eq_dec : EqDecision Dependency.
Proof. solve_decision. Defined.

(** [d.String()], the identity under which data and configuration are
    filed. *)
Definition dep_String (d : Dependency) : string :=
  match d with
  | KVListQuery p => "kv.list(" ++ p ++ ")"
  | VaultReadQuery p => "vault.read(" ++ p ++ ")"
  | CatalogServiceQuery n => "catalog.service(" ++ n ++ ")"
  | OtherQuery id => id
  end.

Definition is_kv (d : Dependency) : bool :=
  match d with KVListQuery _ => true | _ => false end.
Definition is_secret (d : Dependency) : bool :=
  match d with VaultReadQuery _ => true | _ => false end.

(** ** Configuration *)

Module KeyFormat.
Record t := mk { Name : option string; Format : option string }.
End KeyFormat.

Module PrefixConfig.
Record t := mk {
  Format : option string;
  NoPrefix : option bool;
  Path : option string;
  Keys : option (list KeyFormat.t)
}.
End PrefixConfig.

Module ServiceConfig.
Record t := mk {
  Query : option string;
  FormatId : option string;
  FormatName : option string;
  FormatAddress : option string;
  FormatTag : option string;
  FormatPort : option string
}.
End ServiceConfig.

Module EnvConfig.
Record t := mk {
  Allowlist : list string;
  AllowlistDeprecated : list string;
  Custom : list string;
  Denylist : list string;
  DenylistDeprecated : list string;
  Pristine : option bool
}.
End EnvConfig.

Module ExecConfig.
Record t := mk { Command : list string; Env : EnvConfig.t }.
End ExecConfig.

Module WaitConfig.
Record t := mk { Enabled : option bool; Min : option Z; Max : option Z }.
End WaitConfig.

(** The fields of [Config] that the runner reads once the configuration is
    finalized. *)
Module Config.
Record t := mk {
  Exec : ExecConfig.t;
  PidFile : option string;
  Prefixes : list PrefixConfig.t;
  Pristine : option bool;
  Sanitize : option bool;
  Secrets : list PrefixConfig.t;
  Services : list ServiceConfig.t;
  Upcase : option bool;
  Wait : WaitConfig.t
}.
End Config.

(** ** The libraries the runner calls *)

(** A template's function table, one per [template.FuncMap] of the
    source. *)
Inductive TemplateFuncs : Type :=
| FilterFuncs (key : string) (replaceKey : list string → Outcome string)
| PathFuncs (env : string → Result string)
| ServiceFuncs (service key : string).

(** What [template.New(..).Funcs(funcs).Parse(contents)] followed by
    [Execute] comes to. *)
Inductive TemplateResult : Type :=
| ParseError (msg : string)
| ExecuteError (msg : string)
| Rendered (out : string).

Class Libs := {
  (** html/template *)
  template : TemplateFuncs → string → TemplateResult;
  (** the Unicode branch of [strings.ToUpper] *)
  unicodeUpper : string → string;
  (** [filepath.Match pattern name], its error dropped *)
  Match : string → string → bool;
  (** [dep.NewKVListQuery], [dep.NewVaultReadQuery] and
      [dep.NewCatalogServiceQuery]: the query they parse, or an error *)
  parseKVList : string → Result string;
  parseVaultRead : string → Result string;
  parseCatalogService : string → Result string;
  (** [child.CommandPrep], [child.New] and [Start] in turn: nil, or the
      first error *)
  startChild : list string → list string → error
}.

(** The order in which a [range] over a map visits its entries. *)
Record MapOrder := {
  range_of : ∀ A, gmap string A → list (string * A);
  range_perm : ∀ A (m : gmap string A), range_of A m ≡ₚ map_to_list m
}.
Arguments range_of _ {A} _.

Definition ascending : MapOrder :=
  {| range_of := λ A m, map_to_list m; range_perm := λ A m, reflexivity _ |}.

Definition descending : MapOrder :=
  {| range_of := λ A m, reverse (map_to_list m);
     range_perm := λ A m, reverse_Permutation (map_to_list m) |}.

(** ** The runner *)

Module Child.
Record t := mk { Command : list string; Env : list string }.
End Child.

Module Runner.
Record t := mk {
  child : option Child.t;
  config : Config.t;
  configPrefixMap : gmap string PrefixConfig.t;
  configServiceMap : gmap string ServiceConfig.t;
  data : gmap string Payload;
  dependencies : list Dependency;
  env : option (gmap string string);
  once : bool;
  minTimer : option Z;
  maxTimer : option Z
}.
End Runner.

Inductive RunResult : Type :=
| NotReady                (* [return nil, nil]: a dependency has no data *)
| Unchanged               (* [return nil, nil]: same environment *)
| Started (c : Child.t)   (* [return child.ExitCh(), nil] *)
| Failed (msg : string).  (* [return nil, err] *)

Inductive Effect : Type :=
| StopChild (c : Child.t)
| StartChild (c : Child.t).

(** Control flow of a loop body: go on with the next element, or leave
    the enclosing function with [return err]. *)
Inductive Flow (S : Type) : Type :=
| Next (s : S)
| Return (s : S) (err : string).
Arguments Next {S} s.
Arguments Return {S} s err.

Fixpoint for_each {A S} (body : S → A → Outcome (Flow S)) (s : S) (l : list A)
  : Outcome (S * error) :=
  match l with
  | [] => Done (s, None)
  | a :: l' =>
    match body s a with
    | Panic msg => Panic msg
    | Done (Next s') => for_each body s' l'
    | Done (Return s' err) => Done (s', Some err)
    end
  end.

(** As a loop body: the state after an inner loop, or its [return err]. *)
Definition flow_of {S} (r : S * error) : Flow S :=
  match r with
  | (s, None) => Next s
  | (s, Some err) => Return s err
  end.

(** [os.LookupEnv] over the process environment [environ], as
    [os.Environ()] lists it. *)
Fixpoint LookupEnv (environ : list string) (key : string) : option string :=
  match environ with
  | [] => None
  | kv :: rest =>
    match GoString.SplitN_eq_2 kv with
    | [k; v] => if String.eqb k key && negb (String.eqb key "") then Some v
                else LookupEnv rest key
    | _ => LookupEnv rest key
    end
  end.

Section Build.
Context `{!Libs}.

Definition ToUpper : string → string := GoString.ToUpper unicodeUpper.

Definition replaceKey (args : list string) : Outcome string :=
  match args with
  | [] => Panic "index out of range [0] with length 0"
  | [a0; a1; a2] => Done (if String.eqb a0 a2 then a1 else a2)
  | a0 :: _ => Done a0
  end.

(** The three template helpers share one shape: a parse error is dropped
    ([return "", nil]), an execution error is returned. *)
Definition run_template (funcs : TemplateFuncs) (contents : string)
  : string * error :=
  match template funcs contents with
  | ParseError _ => ("", None)
  | ExecuteError msg => ("", Some msg)
  | Rendered out => (out, None)
  end.

Definition applyFormatTemplate (contents key : string) : string * error :=
  run_template (FilterFuncs key replaceKey) contents.

Definition applyPathTemplate (environ : list string) (contents : string)
  : string * error :=
  run_template
    (PathFuncs (λ key,
       match LookupEnv environ key with
       | Some envVar => Ok envVar
       | None => Err ("unable to read environment variable " ++ key
                      ++ " in template " ++ contents)
       end))
    contents.

Definition applyServiceTemplate (contents service key : string)
  : string * error :=
  run_template (ServiceFuncs service key) contents.

(** The last two steps on every emitted key. *)
Definition sanitize_key (c : Config.t) (key : string) : string :=
  if BoolVal (Config.Sanitize c) then InvalidRegexp_ReplaceAllString key
  else key.
Definition upcase_key (c : Config.t) (key : string) : string :=
  if BoolVal (Config.Upcase c) then ToUpper key else key.

(** *** appendServices *)

(** One of the five keys of a service entry: [service/field], or the
    rendering of its format. *)
Definition service_key (cs : option ServiceConfig.t)
    (format : ServiceConfig.t → option string) (service field : string)
  : string * error :=
  match cs with
  | Some c =>
    if StringPresent (format c)
    then applyServiceTemplate (StringVal (format c)) service field
    else (service ++ "/" ++ field, None)
  | None => (service ++ "/" ++ field, None)
  end.

Definition with_key {B} (k : string * error) (f : string → Result B)
  : Result B :=
  match k with
  | (_, Some err) => Err err
  | (keyFormat, None) => f keyFormat
  end.

(** [serKV] for one entry, or the error of the first failing format. *)
Definition serKV_of (cs : option ServiceConfig.t) (ser : CatalogService.t)
  : Result (gmap string string) :=
  let name := CatalogService.ServiceName ser in
  with_key (service_key cs ServiceConfig.FormatId name "id") (λ k,
  let serKV := <[k := CatalogService.ServiceID ser]> (∅ : gmap string string) in
  with_key (service_key cs ServiceConfig.FormatName name "name") (λ k,
  let serKV := <[k := name]> serKV in
  with_key (service_key cs ServiceConfig.FormatAddress name "address") (λ k,
  let serKV := <[k := CatalogService.ServiceAddress ser]> serKV in
  with_key (service_key cs ServiceConfig.FormatTag name "tag") (λ k,
  let serKV := <[k := GoString.Join (CatalogService.ServiceTags ser) ","]> serKV in
  with_key (service_key cs ServiceConfig.FormatPort name "port") (λ k,
  Ok (<[k := GoString.Itoa (CatalogService.ServicePort ser)]> serKV)))))).

(** The loop over [serKV]: upcase, then sanitize, then [env[key] = value]. *)
Definition service_pair (c : Config.t) (env : gmap string string)
    (kv : string * string) : gmap string string :=
  <[sanitize_key c (upcase_key c kv.1) := kv.2]> env.

(** The body of [for _, ser := range typed]. *)
Definition service_entry (r : Runner.t) (o : MapOrder) (d : Dependency)
    (env : gmap string string) (ser : CatalogService.t)
  : Outcome (Flow (gmap string string)) :=
  let cs := Runner.configServiceMap r !! dep_String d in
  match serKV_of cs ser with
  | Err err => Done (Return env err)
  | Ok serKV =>
    Done (Next (foldl (service_pair (Runner.config r)) env (range_of o serKV)))
  end.

Definition appendServices (r : Runner.t) (o : MapOrder)
    (env : gmap string string) (d : Dependency) (data : Payload)
  : Outcome (gmap string string * error) :=
  match data with
  | CatalogServices typed => for_each (service_entry r o d) env typed
  | _ => Done (env, Some ("error converting to service " ++ dep_String d))
  end.

(** *** appendPrefixes *)

(** The body of [for _, pair := range typed]; [cp] is dereferenced for
    the first pair whose key is not blank. *)
Definition prefix_pair (r : Runner.t) (d : Dependency)
    (cp : option PrefixConfig.t) (env : gmap string string) (pair : KeyPair.t)
  : Outcome (Flow (gmap string string)) :=
  let c := Runner.config r in
  let key := KeyPair.Key pair in
  let value := KeyPair.Value pair in
  if GoString.TrimSpace_is_empty key then Done (Next env)
  else
    match cp with
    | None => Panic "nil pointer dereference"
    | Some cp =>
      let prefixed :=
        match PrefixConfig.NoPrefix cp with
        | Some false =>
          match Runner.configPrefixMap r !! dep_String d with
          | None => Err ("missing dependency " ++ dep_String d)
          | Some pc =>
            let path := InvalidRegexp_ReplaceAllString
                          (StringVal (PrefixConfig.Path pc)) in
            Ok (path ++ "_" ++ key)
          end
        | _ => Ok key
        end in
      match prefixed with
      | Err err => Done (Return env err)
      | Ok key =>
        let formatted :=
          if StringPresent (PrefixConfig.Format cp)
          then applyFormatTemplate (StringVal (PrefixConfig.Format cp)) key
          else (key, None) in
        match formatted with
        | (_, Some err) => Done (Return env err)
        | (key, None) =>
          let key := upcase_key c (sanitize_key c key) in
          Done (Next (<[key := value]> env))
        end
      end
    end.

Definition appendPrefixes (r : Runner.t) (env : gmap string string)
    (d : Dependency) (data : Payload)
  : Outcome (gmap string string * error) :=
  match data with
  | KeyPairs typed =>
    let cp := Runner.configPrefixMap r !! dep_String d in
    for_each (prefix_pair r d cp) env typed
  | _ => Done (env, Some ("error converting to keypair " ++ dep_String d))
  end.

(** *** appendSecrets *)

Definition isVaultKv2 (data : gmap string value) : Outcome bool :=
  match data !! "metadata" with
  | None | Some VNil => Done false
  | Some (VMap metadata) => Done (negb (is_nil (metadata !! "version")))
  | Some _ => Panic "interface conversion: interface {} is not map[string]interface {}"
  end.

(** The payload whose entries are emitted: the secret's own map, or for a
    KV-v2 secret the map under ["data"]. *)
Definition secret_valueMap (data : gmap string value)
  : Outcome (gmap string value) :=
  kv2 ← isVaultKv2 data;
  if kv2 : bool then
    match data !! "data" with
    | None | Some VNil => Done ∅
    | Some (VMap inner) => Done inner
    | Some _ => Panic "interface conversion: interface {} is not map[string]interface {}"
    end
  else Done data.

(** [keyFormats]: the formats listed under each name, in listing order. *)
Definition keyFormats_of (keys : list KeyFormat.t)
  : Outcome (gmap string (list KeyFormat.t)) :=
  foldl (λ acc v,
    keyFormats ← acc;
    match KeyFormat.Name v with
    | None => Panic "nil pointer dereference"
    | Some name =>
      Done (<[name := (default [] (keyFormats !! name) ++ [v])%list]> keyFormats)
    end) (Done ∅) keys.

(** [appliedFormats] for one key. *)
Definition appliedFormats_of (keyFormat : list KeyFormat.t) (originalKey : string)
  : Outcome (list string * error) :=
  for_each (λ appliedFormats format,
    if StringPresent (KeyFormat.Format format) then
      match applyFormatTemplate (StringVal (KeyFormat.Format format)) originalKey with
      | (_, Some err) => Done (Return appliedFormats err)
      | (key, None) => Done (Next (appliedFormats ++ [key])%list)
      end
    else Done (Next appliedFormats)) [] keyFormat.

(** The body of [for i := range keys]. *)
Definition secret_emit (r : Runner.t) (environ : list string)
    (d : Dependency) (cp : PrefixConfig.t) (value : value)
    (env : gmap string string) (key : string)
  : Outcome (Flow (gmap string string)) :=
  let c := Runner.config r in
  let prefixed :=
    if is_None_b (PrefixConfig.NoPrefix cp)
       || negb (BoolVal (PrefixConfig.NoPrefix cp))
    then
      match Runner.configPrefixMap r !! dep_String d with
      | None => Err ("missing dependency " ++ dep_String d)
      | Some pc =>
        match applyPathTemplate environ (StringVal (PrefixConfig.Path pc)) with
        | (_, Some err) => Err err
        | (path, None) =>
          Ok (InvalidRegexp_ReplaceAllString path ++ "_" ++ key)
        end
      end
    else Ok key in
  match prefixed with
  | Err err => Done (Return env err)
  | Ok key =>
    let formatted :=
      if StringPresent (PrefixConfig.Format cp)
      then applyFormatTemplate (StringVal (PrefixConfig.Format cp)) key
      else (key, None) in
    match formatted with
    | (_, Some err) => Done (Return env err)
    | (key, None) =>
      let key := upcase_key c (sanitize_key c key) in
      match value with
      | VString val => Done (Next (<[key := val]> env))
      | _ => Done (Next env)
      end
    end
  end.

(** The body of [for originalKey, value := range valueMap]. *)
Definition secret_entry (r : Runner.t) (environ : list string)
    (d : Dependency) (cp : PrefixConfig.t) (applyPerKeyFormat : bool)
    (keyFormats : gmap string (list KeyFormat.t))
    (env : gmap string string) (kv : string * value)
  : Outcome (Flow (gmap string string)) :=
  let originalKey := kv.1 in
  let value := kv.2 in
  if GoString.TrimSpace_is_empty originalKey then Done (Next env)
  else if is_nil (Some value) then Done (Next env)
  else
    let selected : Outcome (option (list string * error)) :=
      if applyPerKeyFormat then
        match keyFormats !! originalKey with
        | None => Done None
        | Some keyFormat =>
          '(appliedFormats, err) ← appliedFormats_of keyFormat originalKey;
          Done (Some (match appliedFormats with
                      | [] => [originalKey]
                      | _ => appliedFormats
                      end, err))
        end
      else Done (Some ([originalKey], None)) in
    sel ← selected;
    match sel with
    | None => Done (Next env)
    | Some (_, Some err) => Done (Return env err)
    | Some (keys, None) =>
      flow_of <$> for_each (secret_emit r environ d cp value) env keys
    end.

(** What [appendSecrets] works out before its loop: [valueMap], the
    prefix configuration, [applyPerKeyFormat] and [keyFormats]. *)
Definition secret_setup (r : Runner.t) (d : Dependency) (typed : Secret.t)
  : Outcome (gmap string value * PrefixConfig.t * bool
             * gmap string (list KeyFormat.t)) :=
  let cp := Runner.configPrefixMap r !! dep_String d in
  valueMap ← secret_valueMap (Secret.Data typed);
  match cp with
  | None => Panic "nil pointer dereference"
  | Some cp =>
    let applyPerKeyFormat :=
      negb (is_None_b (PrefixConfig.Keys cp))
      && negb (StringPresent (PrefixConfig.Format cp)) in
    keyFormats ←
      (if applyPerKeyFormat
       then keyFormats_of (default [] (PrefixConfig.Keys cp))
       else Done ∅);
    Done (valueMap, cp, applyPerKeyFormat, keyFormats)
  end.

Definition appendSecrets (r : Runner.t) (o : MapOrder) (environ : list string)
    (env : gmap string string) (d : Dependency) (data : Payload)
  : Outcome (gmap string string * error) :=
  match data with
  | SecretData typed =>
    '(valueMap, cp, applyPerKeyFormat, keyFormats) ← secret_setup r d typed;
    for_each (secret_entry r environ d cp applyPerKeyFormat keyFormats) env
      (range_of o valueMap)
  | _ => Done (env, Some ("error converting to secret " ++ dep_String d))
  end.

(** *** Receive *)

Definition with_data (r : Runner.t) (x : gmap string Payload) : Runner.t :=
  Runner.mk (Runner.child r) (Runner.config r) (Runner.configPrefixMap r)
    (Runner.configServiceMap r) x (Runner.dependencies r) (Runner.env r)
    (Runner.once r) (Runner.minTimer r) (Runner.maxTimer r).

Definition with_env (r : Runner.t) (x : option (gmap string string)) : Runner.t :=
  Runner.mk (Runner.child r) (Runner.config r) (Runner.configPrefixMap r)
    (Runner.configServiceMap r) (Runner.data r) (Runner.dependencies r) x
    (Runner.once r) (Runner.minTimer r) (Runner.maxTimer r).

Definition with_child (r : Runner.t) (x : option Child.t) : Runner.t :=
  Runner.mk x (Runner.config r) (Runner.configPrefixMap r)
    (Runner.configServiceMap r) (Runner.data r) (Runner.dependencies r)
    (Runner.env r) (Runner.once r) (Runner.minTimer r) (Runner.maxTimer r).

Definition with_timers (r : Runner.t) (tmin tmax : option Z) : Runner.t :=
  Runner.mk (Runner.child r) (Runner.config r) (Runner.configPrefixMap r)
    (Runner.configServiceMap r) (Runner.data r) (Runner.dependencies r)
    (Runner.env r) (Runner.once r) tmin tmax.

Definition Receive (r : Runner.t) (d : Dependency) (data : Payload) : Runner.t :=
  with_data r (<[dep_String d := data]> (Runner.data r)).

(** *** applyConfigEnv *)

Definition combineLists (a b : list string) : list string :=
  a ++ filter (λ v, v ∉ a) b.

Definition anyGlobMatch (s : string) (patterns : list string) : bool :=
  existsb (λ pattern, Match pattern s) patterns.

(** The [custom] map; an entry without [=] has no [list[1]]. *)
Definition parse_custom (entries : list string) : Outcome (gmap string string) :=
  foldl (λ acc v,
    custom ← acc;
    match GoString.SplitN_eq_2 v with
    | k :: val :: _ => Done (<[k := val]> custom)
    | _ => Panic "index out of range [1] with length 1"
    end) (Done ∅) entries.

Definition applyConfigEnv (r : Runner.t) (env : gmap string string)
  : Outcome (gmap string string) :=
  let e := ExecConfig.Env (Config.Exec (Runner.config r)) in
  custom ← parse_custom (EnvConfig.Custom e);
  if BoolVal (EnvConfig.Pristine e) then
    if bool_decide (0 < size custom)%nat then Done custom else Done ∅
  else
    let keys : gset string := dom env in
    let allowlist :=
      combineLists (EnvConfig.Allowlist e) (EnvConfig.AllowlistDeprecated e) in
    let keys :=
      if bool_decide (0 < length allowlist)%nat
      then filter (λ k, anyGlobMatch k allowlist) keys
      else keys in
    let denylist :=
      combineLists (EnvConfig.Denylist e) (EnvConfig.DenylistDeprecated e) in
    let keys :=
      if bool_decide (0 < length denylist)%nat
      then filter (λ k, ¬ anyGlobMatch k denylist) keys
      else keys in
    let env := filter (λ kv : string * string, kv.1 ∈ keys) env in
    Done (custom ∪ env).

(** *** Run *)

Inductive BuildResult : Type :=
| Built (env : gmap string string)
| MissingData (d : Dependency)
| UnknownType (d : Dependency).

(** The loop over [r.dependencies]. The errors the three [append]
    functions return are not bound by the caller. *)
Fixpoint build (r : Runner.t) (o : MapOrder) (environ : list string)
    (env : gmap string string) (deps : list Dependency) : Outcome BuildResult :=
  match deps with
  | [] => Done (Built env)
  | d :: rest =>
    match Runner.data r !! dep_String d with
    | None => Done (MissingData d)
    | Some data =>
      match d with
      | KVListQuery _ =>
        '(env, _) ← appendPrefixes r env d data;
        build r o environ env rest
      | VaultReadQuery _ =>
        '(env, _) ← appendSecrets r o environ env d data;
        build r o environ env rest
      | CatalogServiceQuery _ =>
        '(env, _) ← appendServices r o env d data;
        build r o environ env rest
      | OtherQuery _ => Done (UnknownType d)
      end
    end
  end.

(** [len(r.env) == len(env) && reflect.DeepEqual(r.env, env)]; a nil map
    and an empty map are not deeply equal. *)
Definition same_env (old : option (gmap string string)) (env : gmap string string)
  : bool :=
  match old with
  | None => false
  | Some old => bool_decide (size old = size env) && bool_decide (old = env)
  end.

(** The copy of [os.Environ()] into [newEnv]. *)
Definition inherit (environ : list string) : Outcome (gmap string string) :=
  foldl (λ acc v,
    newEnv ← acc;
    match GoString.SplitN_eq_2 v with
    | k :: val :: _ => Done (<[k := val]> newEnv)
    | _ => Panic "index out of range [1] with length 1"
    end) (Done ∅) environ.

(** [newEnv] before the emitted variables are laid over it: the process
    environment, unless the runner is pristine. *)
Definition ambientEnv (r : Runner.t) (environ : list string)
  : Outcome (gmap string string) :=
  if negb (BoolVal (Config.Pristine (Runner.config r)))
  then inherit environ else Done ∅.

(** The environment of the child: [filteredEnv]. *)
Definition childEnv (r : Runner.t) (environ : list string)
    (env : gmap string string) : Outcome (gmap string string) :=
  newEnv ← ambientEnv r environ;
  applyConfigEnv r (env ∪ newEnv).

Definition cmdEnv_of (o : MapOrder) (filteredEnv : gmap string string)
  : list string :=
  map (λ kv : string * string, kv.1 ++ "=" ++ kv.2) (range_of o filteredEnv).

Definition Run (r : Runner.t) (o : MapOrder) (environ : list string)
  : Outcome (Runner.t * list Effect * RunResult) :=
  b ← build r o environ ∅ (Runner.dependencies r);
  match b with
  | MissingData _ => Done (r, [], NotReady)
  | UnknownType d =>
    Done (r, [], Failed ("unknown dependency type " ++ dep_String d))
  | Built env =>
    if same_env (Runner.env r) env then Done (r, [], Unchanged)
    else
      let r := with_env r (Some env) in
      let stopped :=
        match Runner.child r with
        | Some c => [StopChild c]
        | None => []
        end in
      filteredEnv ← childEnv r environ env;
      let command := ExecConfig.Command (Config.Exec (Runner.config r)) in
      let cmdEnv := cmdEnv_of o filteredEnv in
      match startChild command cmdEnv with
      | Some err => Done (r, stopped, Failed err)
      | None =>
        let c := Child.mk command cmdEnv in
        Done (with_child r (Some c), (stopped ++ [StartChild c])%list, Started c)
      end
  end.
(** *** NewRunner and init *)

Definition add_prefix (r : Runner.t) (d : Dependency) (p : PrefixConfig.t)
  : Runner.t :=
  Runner.mk (Runner.child r) (Runner.config r)
    (<[dep_String d := p]> (Runner.configPrefixMap r))
    (Runner.configServiceMap r) (Runner.data r)
    (Runner.dependencies r ++ [d])%list (Runner.env r)
    (Runner.once r) (Runner.minTimer r) (Runner.maxTimer r).

Definition add_service (r : Runner.t) (d : Dependency) (s : ServiceConfig.t)
  : Runner.t :=
  Runner.mk (Runner.child r) (Runner.config r) (Runner.configPrefixMap r)
    (<[dep_String d := s]> (Runner.configServiceMap r)) (Runner.data r)
    (Runner.dependencies r ++ [d])%list (Runner.env r)
    (Runner.once r) (Runner.minTimer r) (Runner.maxTimer r).

(** The loop over [*r.config.Prefixes] and the one over
    [*r.config.Secrets]; they differ in the constructor they call. *)
Fixpoint init_prefixes (environ : list string)
    (new : string → Result Dependency) (ps : list PrefixConfig.t)
    (r : Runner.t) : Result Runner.t :=
  match ps with
  | [] => Ok r
  | p :: rest =>
    match applyPathTemplate environ (StringVal (PrefixConfig.Path p)) with
    | (_, Some err) => Err err
    | (path, None) =>
      d ← new path;
      init_prefixes environ new rest (add_prefix r d p)
    end
  end.

Fixpoint init_services (new : string → Result Dependency)
    (ss : list ServiceConfig.t) (r : Runner.t) : Result Runner.t :=
  match ss with
  | [] => Ok r
  | s :: rest =>
    d ← new (StringVal (ServiceConfig.Query s));
    init_services new rest (add_service r d s)
  end.

Definition NewKVListQuery (s : string) : Result Dependency :=
  KVListQuery <$> parseKVList s.
Definition NewVaultReadQuery (s : string) : Result Dependency :=
  VaultReadQuery <$> parseVaultRead s.
Definition NewCatalogServiceQuery (s : string) : Result Dependency :=
  CatalogServiceQuery <$> parseCatalogService s.

(** [init], from the point where [r.config] is merged over the defaults
    and finalized: consul prefixes, then services, then vault secrets. *)
Definition init (environ : list string) (r : Runner.t) : Result Runner.t :=
  let c := Runner.config r in
  r ← init_prefixes environ NewKVListQuery (Config.Prefixes c) r;
  r ← init_services NewCatalogServiceQuery (Config.Services c) r;
  init_prefixes environ NewVaultReadQuery (Config.Secrets c) r.

(** The runner [NewRunner] builds before it calls [init]: empty maps, no
    dependency, a nil [env], no child, no timer. *)
Definition NewRunner (environ : list string) (config : Config.t) (once : bool)
  : Result Runner.t :=
  init environ (Runner.mk None config ∅ ∅ ∅ [] None once None None).

(** *** The loop of Start *)

(** What [select] picks. A data arrival carries the time at which it is
    handled and the further data drained with it. *)
Inductive Event : Type :=
| DataArrival (now : Z) (first : Dependency * Payload)
    (drained : list (Dependency * Payload))
| MinTimerFired
| MaxTimerFired
| WatcherError (err : string)
| TokenWatcherError (err : string)
| ChildExit (code : Z)
| DoneClosed.

Inductive Signal : Type :=
| Child_effect (e : Effect)
| ErrCh_send (err : string)
| ExitCh_send (code : Z).

Inductive LoopStatus : Type := Looping | Returned.

(** The loop's state: the runner and the local [exitCh]. *)
Definition LoopState : Type := Runner.t * option Child.t.

(** [time.After(d)] at time [now]: a channel that delivers at [now + d]. *)
Definition After (now d : Z) : option Z := Some (now + d).

(** Whether [select] can pick the event at time [now]: a nil channel
    never delivers, a timer delivers from its deadline on. *)
Definition ready (st : LoopState) (now : Z) (ev : Event) : bool :=
  match ev with
  | MinTimerFired =>
    match Runner.minTimer st.1 with Some t => bool_decide (t ≤ now) | None => false end
  | MaxTimerFired =>
    match Runner.maxTimer st.1 with Some t => bool_decide (t ≤ now) | None => false end
  | ChildExit _ => negb (is_None_b st.2)
  | _ => true
  end.

(** The tail of the loop body: [r.Run()] and what follows it. *)
Definition rebuild (o : MapOrder) (environ : list string) (st : LoopState)
    (sent : list Signal) : Outcome (LoopState * list Signal * LoopStatus) :=
  '(r, effects, res) ← Run st.1 o environ;
  let signals := (sent ++ map Child_effect effects)%list in
  match res with
  | Failed err => Done ((r, st.2), (signals ++ [ErrCh_send err])%list, Returned)
  | Started c => Done ((r, Some c), signals, Looping)
  | NotReady | Unchanged => Done ((r, st.2), signals, Looping)
  end.

Definition Start_step (o : MapOrder) (environ : list string) (st : LoopState)
    (ev : Event) : Outcome (LoopState * list Signal * LoopStatus) :=
  let r := st.1 in
  match ev with
  | DataArrival now first drained =>
    let r := foldl (λ r dd, Receive r dd.1 dd.2) r (first :: drained) in
    let w := Config.Wait (Runner.config r) in
    if BoolVal (WaitConfig.Enabled w) then
      let tmin := After now (TimeDurationVal (WaitConfig.Min w)) in
      let tmax :=
        match Runner.maxTimer r with
        | None => After now (TimeDurationVal (WaitConfig.Max w))
        | Some t => Some t
        end in
      Done ((with_timers r tmin tmax, st.2), [], Looping)
    else rebuild o environ (r, st.2) []
  | MinTimerFired => rebuild o environ (with_timers r None None, st.2) []
  | MaxTimerFired => rebuild o environ (with_timers r None None, st.2) []
  | WatcherError err | TokenWatcherError err =>
    if Runner.once r then Done (st, [ErrCh_send err], Returned)
    else rebuild o environ st []
  | ChildExit code => rebuild o environ st [ExitCh_send code]
  | DoneClosed => Done (st, [], Returned)
  end.
End Build.

(** ** Parse and Must *)

(** The two decoders [Parse] calls, and the configuration struct they
    fill in, [C]. *)
Class ConfigLibs (C : Type) := {
  (** [hcl.Decode(&shadow, s)] *)
  hcl_Decode : string → Result value;
  (** [mapstructure.NewDecoder] with the decoder configuration of [Parse] *)
  mapstructure_NewDecoder : error;
  (** [decoder.Decode(parsed)] into a fresh [Config] *)
  mapstructure_Decode : gmap string value → Result C
}.

Section Parse.
Context {C : Type} `{!ConfigLibs C}.

(** [parsed[key].(map[string]interface{})], or a new empty map. *)
Definition map_or_new (parsed : gmap string value) (key : string)
  : gmap string value :=
  match parsed !! key with
  | Some (VMap m) => m
  | _ => ∅
  end.

(** [flattenKeys]: under a listed key, a list of maps gives way to its
    last map (nil when the list is empty), and listed keys inside it or
    inside a map are flattened in turn. The listed keys have at most
    two segments, which bounds the descent: [depth] levels are visited. *)
Fixpoint flatten (depth : nat) (keyMap : gset string)
    (m : gmap string value) (parent : string) : gmap string value :=
  match depth with
  | O => m
  | S depth =>
    map_imap (λ k v,
      let mapKey := if String.eqb parent "" then k else parent ++ "." ++ k in
      if bool_decide (mapKey ∈ keyMap) then
        match v with
        | VMaps typed =>
          match last typed with
          | Some l => Some (VMap (flatten depth keyMap l mapKey))
          | None => Some VNil
          end
        | VMap typed => Some (VMap (flatten depth keyMap typed mapKey))
        | _ => Some v
        end
      else Some v) m
  end.

Definition flattenKeys (m : gmap string value) (keys : list string)
  : gmap string value :=
  flatten 3 (list_to_set keys) m "".

(** One deprecated top-level key moved under a stanza:
    [stanza[name] = v; parsed[stanza] = ...; delete(parsed, key)]. *)
Definition move_under (stanza name : string) (v : value)
    (parsed : gmap string value) : gmap string value :=
  <[stanza := VMap (<[name := v]> (map_or_new parsed stanza))]> parsed.

Definition deprecations (parsed : gmap string value) : gmap string value :=
  let parsed :=
    match parsed !! "auth" with
    | Some auth => delete "auth" (move_under "consul" "auth" auth parsed)
    | None => parsed
    end in
  let parsed := delete "path" parsed in
  let parsed :=
    match parsed !! "splay" with
    | Some splay => delete "splay" (move_under "exec" "splay" splay parsed)
    | None => parsed
    end in
  let parsed :=
    match parsed !! "retry" with
    | Some retry =>
      let r := VMap (<["backoff" := retry]> (<["max_backoff" := retry]> ∅)) in
      delete "retry"
        (move_under "vault" "retry" r (move_under "consul" "retry" r parsed))
    | None => parsed
    end in
  let parsed :=
    match parsed !! "ssl" with
    | Some ssl =>
      delete "ssl"
        (move_under "vault" "ssl" ssl (move_under "consul" "ssl" ssl parsed))
    | None => parsed
    end in
  let parsed :=
    match parsed !! "timeout" with
    | Some timeout =>
      delete "timeout" (move_under "exec" "kill_timeout" timeout parsed)
    | None => parsed
    end in
  match parsed !! "token" with
  | Some token => delete "token" (move_under "consul" "token" token parsed)
  | None => parsed
  end.

(** [Parse]: the pointer it returns and its error. *)
Definition Parse (s : string) : option C * error :=
  match hcl_Decode s with
  | Err err => (None, Some ("error decoding config: " ++ err))
  | Ok shadow =>
    match shadow with
    | VMap parsed =>
      let parsed :=
        flattenKeys parsed
          ["consul"; "consul.auth"; "consul.retry"; "consul.ssl";
           "consul.transport"; "exec"; "exec.env"; "syslog"; "vault";
           "vault.retry"; "vault.ssl"; "vault.transport"; "wait"] in
      let parsed := flattenKeys parsed ["auth"; "ssl"] in
      let parsed := deprecations parsed in
      match mapstructure_NewDecoder with
      | Some err => (None, Some ("mapstructure decoder creation failed: " ++ err))
      | None =>
        match mapstructure_Decode parsed with
        | Err err => (None, Some ("mapstructure decode failed: " ++ err))
        | Ok c => (Some c, None)
        end
      end
    | _ => (None, Some "error converting config")
    end
  end.

(** [Must]: the pointer it returns, and the lines it logs at error
    level. *)
Definition Must (s : string) : option C * list string :=
  let '(c, err) := Parse s in
  match err with
  | Some msg => (c, [msg])
  | None => (c, [])
  end.
End Parse.

(** ** A concrete set of libraries, for running the model *)

Module Sample.

(** [filepath.Match] on patterns made of literal characters, [*] and [?]
    (no class, no escape); neither wildcard matches the separator. *)
Fixpoint glob (pattern : list ascii) : list ascii → bool :=
  match pattern with
  | [] => λ name, match name with [] => true | _ => false end
  | p :: pattern' =>
    if Ascii.eqb p "*"%char then
      fix star (name : list ascii) : bool :=
        glob pattern' name
        || match name with
           | c :: name' => negb (Ascii.eqb c "/"%char) && star name'
           | [] => false
           end
    else λ name,
      match name with
      | c :: name' =>
        (if Ascii.eqb p "?"%char then negb (Ascii.eqb c "/"%char)
         else Ascii.eqb p c) && glob pattern' name'
      | [] => false
      end
  end.

Definition glob_match (pattern name : string) : bool :=
  glob (list_ascii_of_string pattern) (list_ascii_of_string name).

Fixpoint contains_action (s : string) : bool :=
  match s with
  | String "{" (String "{" _) => true
  | String _ t => contains_action t
  | EmptyString => false
  end.

Definition strip_prefix (p s : string) : option string :=
  if String.prefix p s
  then Some (substring (String.length p) (String.length s - String.length p) s)
  else None.

Definition strip_suffix (p s : string) : option string :=
  let n := (String.length s - String.length p)%nat in
  if String.eqb (substring n (String.length p) s) p
     && bool_decide (String.length p ≤ String.length s)%nat
  then Some (substring 0 n s) else None.

(** A fragment of html/template: text without an action renders as
    itself; the single action [{{env `NAME`}}] calls [env]; the single
    action [{{replaceKey}}] calls [replaceKey] without arguments, and the
    engine turns the call's panic into an execution error; an action that
    is left open does not parse. Every other template is outside the
    fragment and is rejected as well. *)
Definition template_fragment (funcs : TemplateFuncs) (contents : string)
  : TemplateResult :=
  if negb (contains_action contents) then Rendered contents
  else
    match funcs with
    | PathFuncs env =>
      match strip_prefix "{{env `" contents ≫= strip_suffix "`}}" with
      | Some name =>
        match env name with
        | Ok v => Rendered v
        | Err msg => ExecuteError msg
        end
      | None => ParseError "template: unexpected action"
      end
    | FilterFuncs key replaceKey =>
      if String.eqb contents "{{replaceKey}}" then
        match replaceKey [] with
        | Done out => Rendered out
        | Panic msg => ExecuteError ("error calling replaceKey: " ++ msg)
        end
      else ParseError "template: unexpected action"
    | ServiceFuncs _ _ => ParseError "template: unexpected action"
    end.

#[export] Instance libs : Libs := {|
  template := template_fragment;
  unicodeUpper := id;
  Match := glob_match;
  parseKVList := Ok;
  parseVaultRead := Ok;
  parseCatalogService := Ok;
  startChild := λ command _,
    match command with
    | [] => Some "parsing command: executable file not found in $PATH"
    | _ => None
    end
|}.

(** Decoders that accept the empty document only. *)
#[export] Instance config_libs : ConfigLibs unit := {|
  hcl_Decode := λ s,
    if String.eqb s EmptyString then Ok (VMap ∅)
    else Err "At 1:1: illegal char";
  mapstructure_NewDecoder := None;
  mapstructure_Decode := λ _, Ok tt
|}.

End Sample.


(** ** The loop of Start over a run of events *)

Section Loop.
Context `{!Libs}.

(** The [for] loop of [Start]: one [Start_step] per event that [select]
    picks, until a step returns; the signals of the steps in sequence. *)
Fixpoint Start_loop (o : MapOrder) (environ : list string) (st : LoopState)
    (events : list Event) : Outcome (LoopState * list Signal * LoopStatus) :=
  match events with
  | [] => Done (st, [], Looping)
  | ev :: rest =>
    '(st', signals, status) ← Start_step o environ st ev;
    match status with
    | Returned => Done (st', signals, Returned)
    | Looping =>
      '(st'', signals', status') ← Start_loop o environ st' rest;
      Done (st'', (signals ++ signals')%list, status')
    end
  end.

End Loop.

(** ** Defaults read from the process environment *)

(** [os.Getenv]. *)
Definition Getenv (environ : list string) (key : string) : string :=
  default "" (LookupEnv environ key).

(** [strconv.ParseBool]. *)
Definition ParseBool (s : string) : Result bool :=
  if bool_decide (s ∈ ["1"; "t"; "T"; "TRUE"; "true"; "True"]) then Ok true
  else if bool_decide (s ∈ ["0"; "f"; "F"; "FALSE"; "false"; "False"]) then Ok false
  else Err "invalid syntax".

Fixpoint boolFromEnv (environ : list string) (list : list string) (def : bool)
  : bool :=
  match list with
  | [] => def
  | s :: rest =>
    let v := Getenv environ s in
    if negb (String.eqb v "") then
      match ParseBool v with
      | Ok b => b
      | Err _ => boolFromEnv environ rest def
      end
    else boolFromEnv environ rest def
  end.

Fixpoint antiboolFromEnv (environ : list string) (list : list string) (def : bool)
  : bool :=
  match list with
  | [] => def
  | s :: rest =>
    let v := Getenv environ s in
    if negb (String.eqb v "") then
      match ParseBool v with
      | Ok b => negb b
      | Err _ => antiboolFromEnv environ rest def
      end
    else antiboolFromEnv environ rest def
  end.

(** * Properties *)

(** ** Statements of the specification, in its own words *)

(** The key of a KV pair before formatting, as the code computes it: the
    path is put in front when [no_prefix] is set and false. *)
Definition kv_key (cp : PrefixConfig.t) (k : string) : string :=
  match PrefixConfig.NoPrefix cp with
  | Some false =>
    InvalidRegexp_ReplaceAllString (StringVal (PrefixConfig.Path cp)) ++ "_" ++ k
  | _ => k
  end.

(** The same key as the specification words it: the path is put in
    front when [no_prefix] is false, set or not. *)
Definition kv_key_spec (cp : PrefixConfig.t) (k : string) : string :=
  if BoolVal (PrefixConfig.NoPrefix cp) then k
  else InvalidRegexp_ReplaceAllString (StringVal (PrefixConfig.Path cp)) ++ "_" ++ k.

(** The pairs of a KV payload that are emitted. *)
Definition named (pairs : list KeyPair.t) : list KeyPair.t :=
  filter (λ p, ¬ GoString.TrimSpace_is_empty (KeyPair.Key p)) pairs.

(** The allowlist and the denylist, each with its deprecated spelling. *)
Definition allowlist_of (e : EnvConfig.t) : list string :=
  EnvConfig.Allowlist e ++ filter (λ v, v ∉ EnvConfig.Allowlist e)
                             (EnvConfig.AllowlistDeprecated e).
Definition denylist_of (e : EnvConfig.t) : list string :=
  EnvConfig.Denylist e ++ filter (λ v, v ∉ EnvConfig.Denylist e)
                            (EnvConfig.DenylistDeprecated e).

(** "(allowlist empty ∨ some glob matches K) ∧ (no denylist glob
    matches K)". *)
Definition passes `{!Libs} (e : EnvConfig.t) (K : string) : Prop :=
  (allowlist_of e = [] ∨ ∃ g, g ∈ allowlist_of e ∧ Match g K = true)
  ∧ ¬ ∃ g, g ∈ denylist_of e ∧ Match g K = true.

(** *** What a loop writes *)

(** The loops of the three [append] functions only add to [env]: what a
    body does on [env] is what it does on the empty map, laid over
    [env]. *)
Definition lift_flow (env : gmap string string)
    (x : Outcome (Flow (gmap string string)))
  : Outcome (Flow (gmap string string)) :=
  match x with
  | Done (Next em) => Done (Next (em ∪ env))
  | Done (Return em err) => Done (Return (em ∪ env) err)
  | Panic msg => Panic msg
  end.

Definition lift_result (env : gmap string string)
    (x : Outcome (gmap string string * error))
  : Outcome (gmap string string * error) :=
  match x with
  | Done (em, err) => Done (em ∪ env, err)
  | Panic msg => Panic msg
  end.

Definition frames {A}
    (body : gmap string string → A → Outcome (Flow (gmap string string)))
  : Prop :=
  ∀ env a, body env a = lift_flow env (body ∅ a).

(** The variables a body writes for one element, when it neither fails
    nor panics on it. *)
Definition emission {A}
    (body : gmap string string → A → Outcome (Flow (gmap string string)))
    (a : A) : option (gmap string string) :=
  match body ∅ a with
  | Done (Next em) => Some em
  | _ => None
  end.

Fixpoint disjoint_all (ms : list (gmap string string)) : bool :=
  match ms with
  | [] => true
  | m :: rest =>
    forallb (λ m', bool_decide (m ##ₘ m')) rest && disjoint_all rest
  end.

(** No element makes the body fail, and no two elements are written
    under a common key. *)
Definition collision_free {A}
    (body : gmap string string → A → Outcome (Flow (gmap string string)))
    (l : list A) : bool :=
  forallb (λ a, bool_decide (is_Some (emission body a))) l
  && disjoint_all (map (λ a, default ∅ (emission body a)) l).

Section Wording.
Context `{!Libs}.

(** The entries of a secret's map are emitted without failure and under
    keys of their own. A setup that panics does so in any order. *)
Definition secret_order_free (r : Runner.t) (environ : list string)
    (d : Dependency) (typed : Secret.t) : bool :=
  match secret_setup r d typed with
  | Done (valueMap, cp, applyPerKeyFormat, keyFormats) =>
    collision_free (secret_entry r environ d cp applyPerKeyFormat keyFormats)
      (map_to_list valueMap)
  | Panic _ => true
  end.

(** The keys of a service entry stay distinct once upcased and
    sanitized. *)
Definition service_order_free (r : Runner.t) (d : Dependency)
    (ser : CatalogService.t) : bool :=
  match serKV_of (Runner.configServiceMap r !! dep_String d) ser with
  | Ok serKV =>
    collision_free (λ env kv, Done (Next (service_pair (Runner.config r) env kv)))
      (map_to_list serKV)
  | Err _ => true
  end.

(** The data filed for [d] is emitted in the same way in whatever order
    its maps are visited. *)
Definition order_free (r : Runner.t) (environ : list string) (d : Dependency)
  : bool :=
  match d, Runner.data r !! dep_String d with
  | VaultReadQuery _, Some (SecretData typed) =>
    secret_order_free r environ d typed
  | CatalogServiceQuery _, Some (CatalogServices typed) =>
    forallb (service_order_free r d) typed
  | _, _ => true
  end.

(** What the dependency [d] emits on its own in a build of [r]. *)
Definition emitted_by (r : Runner.t) (o : MapOrder) (environ : list string)
    (d : Dependency) : Outcome (gmap string string * error) :=
  match Runner.data r !! dep_String d with
  | None => Done (∅, None)
  | Some data =>
    match d with
    | KVListQuery _ => appendPrefixes r ∅ d data
    | VaultReadQuery _ => appendSecrets r o environ ∅ d data
    | CatalogServiceQuery _ => appendServices r o ∅ d data
    | OtherQuery _ => Done (∅, None)
    end
  end.

(** [d] writes the variable [K] with the value [v]. *)
Definition emits (r : Runner.t) (o : MapOrder) (environ : list string)
    (d : Dependency) (K v : string) : Prop :=
  ∃ em err, emitted_by r o environ d = Done (em, err) ∧ em !! K = Some v.

End Wording.

(** *** Wording of the further properties *)

#[global] Instance Child_eq_dec : EqDecision Child.t.
Proof. solve_decision. Defined.

(** Replaying the child effects of a trace from the child that is alive:
    a child is started only when none is alive, and the child that is
    stopped is the one alive. *)
Fixpoint single_flight (alive : option Child.t) (trace : list Signal) : bool :=
  match trace with
  | [] => true
  | Child_effect (StartChild c) :: rest =>
    is_None_b alive && single_flight (Some c) rest
  | Child_effect (StopChild c) :: rest =>
    bool_decide (alive = Some c) && single_flight None rest
  | _ :: rest => single_flight alive rest
  end.

(** The child alive after a trace. *)
Fixpoint alive_after (alive : option Child.t) (trace : list Signal)
  : option Child.t :=
  match trace with
  | [] => alive
  | Child_effect (StartChild c) :: rest => alive_after (Some c) rest
  | Child_effect (StopChild c) :: rest => alive_after None rest
  | _ :: rest => alive_after alive rest
  end.

(** A run of data arrivals, each with its time and what is drained. *)
Definition arrivals
    (l : list (Z * (Dependency * Payload) * list (Dependency * Payload)))
  : list Event :=
  map (λ a, DataArrival a.1.1 a.1.2 a.2) l.

Definition arrival_time
    (a : Z * (Dependency * Payload) * list (Dependency * Payload)) : Z := a.1.1.

(** What the building of the environment reads of the runner. *)
Definition same_inputs (r1 r2 : Runner.t) : Prop :=
  Runner.config r1 = Runner.config r2
  ∧ Runner.configPrefixMap r1 = Runner.configPrefixMap r2
  ∧ Runner.configServiceMap r1 = Runner.configServiceMap r2
  ∧ Runner.data r1 = Runner.data r2.

(** The dependency has the configuration [Run] looks up for it. *)
Definition registered (r : Runner.t) (d : Dependency) : Prop :=
  match d with
  | KVListQuery _ | VaultReadQuery _ =>
    is_Some (Runner.configPrefixMap r !! dep_String d)
  | CatalogServiceQuery _ =>
    is_Some (Runner.configServiceMap r !! dep_String d)
  | OtherQuery _ => False
  end.

(** The string entries of a secret's map whose key is not blank. *)
Definition plain_strings (valueMap : gmap string value) : gmap string string :=
  omap (λ v, match v with VString val => Some val | _ => None end)
    (filter (λ kv : string * value, ¬ GoString.TrimSpace_is_empty kv.1) valueMap).

(** The five variables of a service entry under their default keys. *)
Definition service_fields (ser : CatalogService.t) : gmap string string :=
  let name := CatalogService.ServiceName ser in
  <[name ++ "/port" := GoString.Itoa (CatalogService.ServicePort ser)]>
    (<[name ++ "/tag" := GoString.Join (CatalogService.ServiceTags ser) ","]>
       (<[name ++ "/address" := CatalogService.ServiceAddress ser]>
          (<[name ++ "/name" := name]>
             (<[name ++ "/id" := CatalogService.ServiceID ser]> ∅)))).

(** The text has a [=]. *)
Fixpoint has_eq (s : string) : bool :=
  match s with
  | EmptyString => false
  | String c t => Ascii.eqb c "="%char || has_eq t
  end.

(** The number of dots of a key path. *)
Fixpoint dots (s : string) : nat :=
  match s with
  | EmptyString => 0
  | String c t => (if Ascii.eqb c "."%char then 1 else 0) + dots t
  end.

(** The service has no format of its own for any of the five keys. *)
Definition no_formats (cs : option ServiceConfig.t) : bool :=
  match cs with
  | None => true
  | Some c =>
    negb (StringPresent (ServiceConfig.FormatId c))
    && negb (StringPresent (ServiceConfig.FormatName c))
    && negb (StringPresent (ServiceConfig.FormatAddress c))
    && negb (StringPresent (ServiceConfig.FormatTag c))
    && negb (StringPresent (ServiceConfig.FormatPort c))
  end.

(** One rewriting of [Parse]: the value under a deprecated key is moved
    by [move] and the key is deleted. *)
Definition retire (key : string)
    (move : value → gmap string value → gmap string value)
    (parsed : gmap string value) : gmap string value :=
  match parsed !! key with
  | Some v => delete key (move v parsed)
  | None => parsed
  end.

(** The keys [Parse] flattens in its first pass. *)
Definition stanza_keys : list string :=
  ["consul"; "consul.auth"; "consul.retry"; "consul.ssl"; "consul.transport";
   "exec"; "exec.env"; "syslog"; "vault"; "vault.retry"; "vault.ssl";
   "vault.transport"; "wait"].

(** The stanza [stanza] of [parsed] is a map that holds [v] under
    [name]. *)
Definition holds (parsed : gmap string value) (stanza name : string) (v : value)
  : Prop :=
  ∃ m, parsed !! stanza = Some (VMap m) ∧ m !! name = Some v.

(** The top-level keys [Parse] treats as deprecated. *)
Definition deprecated_keys : list string :=
  ["auth"; "path"; "splay"; "retry"; "ssl"; "timeout"; "token"].

(** [v] is a [map[string]interface{}]. *)
Definition is_map (v : value) : bool :=
  match v with VMap _ => true | _ => false end.

(** ** Inputs of the examples *)

Module Ex.
Import Sample.

Definition exec (pristine : option bool) (custom allow deny : list string)
  : ExecConfig.t :=
  ExecConfig.mk ["env"] (EnvConfig.mk allow [] custom deny [] pristine).

Definition no_wait : WaitConfig.t := WaitConfig.mk None None None.

(** A runner over one consul prefix [app] whose [no_prefix] is not set. *)
Definition kv_unset : PrefixConfig.t := PrefixConfig.mk None None (Some "app") None.
Definition kv_config : Config.t :=
  Config.mk (exec None [] [] []) None [kv_unset] None None [] [] None no_wait.
Definition kv_runner : Runner.t :=
  Runner.mk None kv_config {["kv.list(app)" := kv_unset]} ∅ ∅
    [KVListQuery "app"] None false None None.

(** The same runner with a child running on the environment [k=v], when
    the data filed for the prefix is a secret rather than a list of
    pairs. *)
Definition old_child : Child.t := Child.mk ["env"] ["k=v"; "PATH=/x"].
Definition kv_runner_wrong_shape : Runner.t :=
  Runner.mk (Some old_child) kv_config {["kv.list(app)" := kv_unset]} ∅
    {["kv.list(app)" := SecretData (Secret.mk {["k" := VString "v"]})]}
    [KVListQuery "app"] (Some {["k" := "v"]}) false None None.

(** A runner over one consul prefix with a format, a child running, and
    the pair (k, v) received. *)
Definition kv_format (format : string) : PrefixConfig.t :=
  PrefixConfig.mk (Some format) None (Some "app") None.
Definition kv_runner_format (format : string) : Runner.t :=
  Runner.mk (Some old_child)
    (Config.mk (exec None [] [] []) None [kv_format format] None None [] []
       None no_wait)
    {["kv.list(app)" := kv_format format]} ∅
    {["kv.list(app)" := KeyPairs [KeyPair.mk "k" "v"]]}
    [KVListQuery "app"] (Some {["k" := "v"]}) false None None.

(** A runner over one vault secret at [secret/app], without prefix. *)
Definition secret_bare : PrefixConfig.t :=
  PrefixConfig.mk None (Some true) (Some "secret/app") None.
Definition secret_runner (sanitize : option bool) : Runner.t :=
  Runner.mk None
    (Config.mk (exec None [] [] []) None [] None sanitize [secret_bare] []
       None no_wait)
    {["vault.read(secret/app)" := secret_bare]} ∅ ∅
    [VaultReadQuery "secret/app"] None false None None.

(** Payloads of a secret. *)
Definition nil_metadata : Secret.t :=
  Secret.mk (<["metadata" := VNil]> {["k" := VString "v"]}).
Definition kv2_nil_data : Secret.t :=
  Secret.mk (<["metadata" := VMap {["version" := VOther "json.Number"]}]>
               {["data" := VNil]}).
Definition string_metadata : Secret.t :=
  Secret.mk {["metadata" := VString "x"]}.

(** Emitted variables meeting the filters: a runner over the prefix [app]
    that denies [SECRET_*], after the pair (SECRET_A, 1) is received. *)
Definition deny_runner : Runner.t :=
  Runner.mk None
    (Config.mk (exec None [] [] ["SECRET_*"]) None [kv_unset] None None [] []
       None no_wait)
    {["kv.list(app)" := kv_unset]} ∅
    {["kv.list(app)" := KeyPairs [KeyPair.mk "SECRET_A" "1"]]}
    [KVListQuery "app"] None false None None.

(** The fourth scenario of the specification: an allowlist and a
    denylist over the inherited environment. *)
Definition scenario4 : Runner.t :=
  Runner.mk None
    (Config.mk (exec None [] ["PATH"; "HOME"] ["HO*"]) None [] None None [] []
       None no_wait)
    ∅ ∅ ∅ [] None false None None.

(** A pristine runner, with or without [exec.env.pristine], over the
    prefix [app], after the pair (k, v) is received; [HOME] is custom. *)
Definition pristine_runner (exec_pristine : option bool) (deny : list string)
  : Runner.t :=
  Runner.mk None
    (Config.mk (exec exec_pristine ["HOME=/c"] [] deny) None [kv_unset]
       (Some true) None [] [] None no_wait)
    {["kv.list(app)" := kv_unset]} ∅
    {["kv.list(app)" := KeyPairs [KeyPair.mk "k" "v"]]}
    [KVListQuery "app"] None false None None.

(** A secret whose two keys are sanitized to the same name. *)
Definition colliding_secret : Secret.t :=
  Secret.mk (<["a.b" := VString "1"]> {["a-b" := VString "2"]}).
Definition colliding_runner : Runner.t :=
  Receive (secret_runner (Some true)) (VaultReadQuery "secret/app")
    (SecretData colliding_secret).

(** A secret whose keys stay apart, next to a consul prefix. *)
Definition settled_runner : Runner.t :=
  Runner.mk None
    (Config.mk (exec None [] [] []) None [kv_unset] None (Some true)
       [secret_bare] [] (Some true) no_wait)
    (<["kv.list(app)" := kv_unset]> {["vault.read(secret/app)" := secret_bare]})
    ∅
    (<["kv.list(app)" := KeyPairs [KeyPair.mk "token" "wrong"]]>
       {["vault.read(secret/app)" :=
           SecretData (Secret.mk (<["token" := VString "right"]>
                                    {["user.name" := VString "x"]}))]})
    [KVListQuery "app"; VaultReadQuery "secret/app"]
    (Some (<["TOKEN" := "right"]> {["USER_NAME" := "x"]}))
    false None None.

(** The second scenario of the specification: the consul prefix [app]
    and the vault secret [secret/app], both emitting [TOKEN] once
    upcased. *)
Definition precedence_config : Config.t :=
  Config.mk (exec None [] [] []) None [kv_unset] None None [secret_bare] []
    (Some true) no_wait.
Definition precedence_runner : Runner.t :=
  Runner.mk None precedence_config
    (<["vault.read(secret/app)" := secret_bare]> {["kv.list(app)" := kv_unset]})
    ∅ ∅ [KVListQuery "app"; VaultReadQuery "secret/app"] None false None None.
Definition token_wrong : Payload := KeyPairs [KeyPair.mk "token" "wrong"].
Definition token_right : Payload :=
  SecretData (Secret.mk {["token" := VString "right"]}).

(** Two vault secrets without prefix next to the consul prefix [app],
    all three holding the key [token]. *)
Definition secret_at (path : string) : PrefixConfig.t :=
  PrefixConfig.mk None (Some true) (Some path) None.
Definition two_secrets_config : Config.t :=
  Config.mk (exec None [] [] []) None [kv_unset] None None
    [secret_at "secret/a"; secret_at "secret/b"] [] None no_wait.
Definition two_secrets_runner : Runner.t :=
  Runner.mk None two_secrets_config
    (<["vault.read(secret/b)" := secret_at "secret/b"]>
       (<["vault.read(secret/a)" := secret_at "secret/a"]>
          {["kv.list(app)" := kv_unset]}))
    ∅ ∅
    [KVListQuery "app"; VaultReadQuery "secret/a"; VaultReadQuery "secret/b"]
    None false None None.
Definition token_of (v : string) : Payload :=
  SecretData (Secret.mk {["token" := VString v]}).
Definition two_secrets_received : Runner.t :=
  Receive
    (Receive
       (Receive two_secrets_runner (VaultReadQuery "secret/b") (token_of "second"))
       (KVListQuery "app") token_wrong)
    (VaultReadQuery "secret/a") (token_of "first").

(** The first scenario of the specification: the prefix [app/db], put in
    front of the keys, with upcase and sanitize. *)
Definition app_db : PrefixConfig.t :=
  PrefixConfig.mk None (Some false) (Some "app/db") None.
Definition scenario1 : Runner.t :=
  Runner.mk None
    (Config.mk (exec None [] [] []) None [app_db] None (Some true) [] []
       (Some true) no_wait)
    {["kv.list(app/db)" := app_db]} ∅
    {["kv.list(app/db)" :=
        KeyPairs [KeyPair.mk "host" "db1"; KeyPair.mk "user.name" "x"]]}
    [KVListQuery "app/db"] None false None None.

(** The third scenario: a KV-v2 payload. *)
Definition kv2_payload : Secret.t :=
  Secret.mk (<["data" := VMap {["k" := VString "v"]}]>
               {["metadata" := VMap {["version" := VOther "json.Number"]}]}).

(** A runner that waits for quiescence: 100ms at least, 400ms at most
    (in nanoseconds). *)
Definition waiting_runner : Runner.t :=
  Runner.mk None
    (Config.mk (exec None [] [] []) None [kv_unset] None None [] [] None
       (WaitConfig.mk (Some true) (Some 100000000) (Some 400000000)))
    {["kv.list(app)" := kv_unset]} ∅ ∅ [KVListQuery "app"] None false None None.

(** A runner over the catalog service [web], with no format of its own,
    and two instances of the service. *)
Definition service_runner : Runner.t :=
  Runner.mk None
    (Config.mk (exec None [] [] []) None [] None None []
       [ServiceConfig.mk (Some "web") None None None None None] None no_wait)
    ∅ {["catalog.service(web)" := ServiceConfig.mk (Some "web") None None None None None]}
    ∅ [CatalogServiceQuery "web"] None false None None.
Definition web (id address : string) : CatalogService.t :=
  CatalogService.mk id "web" address ["blue"; "v2"] 8080.

(** A runner over one vault secret whose listing of keys is empty. *)
Definition secret_listing : PrefixConfig.t :=
  PrefixConfig.mk None (Some true) (Some "secret/app") (Some []).
Definition listing_runner : Runner.t :=
  Runner.mk None
    (Config.mk (exec None [] [] []) None [] None None [secret_listing] []
       None no_wait)
    {["vault.read(secret/app)" := secret_listing]} ∅ ∅
    [VaultReadQuery "secret/app"] None false None None.

(** A secret with a string, a number and a string under a blank key. *)
Definition mixed_secret : Secret.t :=
  Secret.mk (<["k" := VString "v"]>
               (<["n" := VOther "json.Number"]> {[" " := VString "w"]})).

(** Two deliveries for the prefix [app], then the close of the done
    channel. *)
Definition two_deliveries : list Event :=
  [DataArrival 0 (KVListQuery "app", KeyPairs [KeyPair.mk "k" "v"]) [];
   DataArrival 1 (KVListQuery "app", KeyPairs [KeyPair.mk "k" "w"]) [];
   DoneClosed].

(** Four deliveries for the prefix [app], at 0, 50, 120 and 180ms. *)
Definition bursts
  : list (Z * (Dependency * Payload) * list (Dependency * Payload)) :=
  [(50000000, (KVListQuery "app", KeyPairs []), []);
   (120000000, (KVListQuery "app", KeyPairs []), []);
   (180000000, (KVListQuery "app", KeyPairs []), [])].

(** A parsed document with stanzas as lists of maps, three levels deep. *)
Definition nested_document : gmap string value :=
  <["consul" :=
      VMaps [ {["address" := VString "old"]};
              <["ssl" := VMaps [ {["cert" := VMaps [ {["deep" := VString "x"]} ]]} ]]>
                {["address" := VString "new"]} ]]>
    {["wait" := VMaps []]}.

End Ex.

(** ** Loops *)

Section Properties.
Context `{!Libs}.

Lemma for_each_app {A S} (body : S → A → Outcome (Flow S)) s l1 l2 :
  for_each body s (l1 ++ l2) =
  match for_each body s l1 with
  | Done (s', None) => for_each body s' l2
  | other => other
  end.
Proof.
  revert s. induction l1 as [|a l1 IH]; intros s; simpl; [done|].
  destruct (body s a) as [[s'|s' err]|msg]; simpl; auto.
Qed.

Lemma for_each_Next {A S} (body : S → A → Outcome (Flow S)) (f : S → A → S) s l :
  (∀ s a, body s a = Done (Next (f s a))) →
  for_each body s l = Done (foldl f s l, None).
Proof.
  intros Hbody. revert s. induction l as [|a l IH]; intros s; simpl; [done|].
  by rewrite Hbody, IH.
Qed.

Lemma foldl_skip {A S} (skip : A → bool) (g : S → A → S) s l :
  foldl (λ s a, if skip a then s else g s a) s l =
  foldl g s (filter (λ a, ¬ skip a) l).
Proof.
  revert s. induction l as [|a l IH]; intros s; [done|].
  rewrite filter_cons. simpl. destruct (skip a) eqn:Hs.
  - rewrite decide_False by (simpl; auto). apply IH.
  - rewrite decide_True by (simpl; auto). apply IH.
Qed.

(** ** C6: the prefix of a consul key *)

Lemma appendPrefixes_pairs r env d cp pairs :
  Runner.configPrefixMap r !! dep_String d = Some cp →
  StringPresent (PrefixConfig.Format cp) = false →
  appendPrefixes r env d (KeyPairs pairs) =
  Done (foldl (λ e p,
          <[upcase_key (Runner.config r)
              (sanitize_key (Runner.config r) (kv_key cp (KeyPair.Key p)))
            := KeyPair.Value p]> e) env (named pairs), None).
Proof.
  intros Hcp Hfmt. unfold appendPrefixes, named. rewrite Hcp.
  rewrite <- (foldl_skip (λ p, GoString.TrimSpace_is_empty (KeyPair.Key p))).
  apply for_each_Next. intros e p. unfold prefix_pair. rewrite Hcp.
  destruct (GoString.TrimSpace_is_empty (KeyPair.Key p)); [done|].
  rewrite Hfmt. unfold kv_key.
  by destruct (PrefixConfig.NoPrefix cp) as [[]|].
Qed.


(** ** Loops that only add to the environment *)

Lemma lift_result_lift env1 env2 x :
  lift_result env2 (lift_result env1 x) = lift_result (env1 ∪ env2) x.
Proof. destruct x as [[em err]|]; simpl; [|done]. by rewrite (assoc_L (∪)). Qed.

Lemma for_each_frames {A}
    (body : gmap string string → A → Outcome (Flow (gmap string string))) l env :
  frames body → for_each body env l = lift_result env (for_each body ∅ l).
Proof.
  intros Hf. revert env. induction l as [|a l IH]; intros env; simpl.
  - by rewrite (left_id_L ∅ (∪)).
  - rewrite (Hf env a). destruct (body ∅ a) as [[em|em err]|msg]; simpl; try done.
    by rewrite (IH (em ∪ env)), (IH em), lift_result_lift.
Qed.

Lemma flow_of_lift env (x : Outcome (gmap string string * error)) :
  flow_of <$> lift_result env x = lift_flow env (flow_of <$> x).
Proof. by destruct x as [[em [err|]]|]. Qed.

Lemma insert_over (env : gmap string string) k v : <[k := v]> env = <[k := v]> ∅ ∪ env.
Proof. by rewrite <- insert_union_l, (left_id_L ∅ (∪)). Qed.

Lemma frames_prefix_pair r d cp : frames (prefix_pair r d cp).
Proof.
  intros env pair. unfold prefix_pair.
  destruct (GoString.TrimSpace_is_empty _); simpl.
  { by rewrite (left_id_L ∅ (∪)). }
  destruct cp as [cp|]; [|done].
  destruct (match PrefixConfig.NoPrefix cp with Some false => _ | _ => _ end)
    as [key|err]; simpl.
  - destruct (if StringPresent _ then _ else _) as [key' [err|]]; simpl.
    + by rewrite (left_id_L ∅ (∪)).
    + by rewrite insert_over.
  - by rewrite (left_id_L ∅ (∪)).
Qed.

Lemma frames_secret_emit r environ d cp value :
  frames (secret_emit r environ d cp value).
Proof.
  intros env key. unfold secret_emit.
  destruct (if _ || _ then _ else _) as [key'|err]; simpl.
  - destruct (if StringPresent _ then _ else _) as [key'' [err|]]; simpl.
    + by rewrite (left_id_L ∅ (∪)).
    + destruct value; simpl; rewrite ?(left_id_L ∅ (∪)); try done.
      by rewrite insert_over.
  - by rewrite (left_id_L ∅ (∪)).
Qed.

Lemma frames_secret_entry r environ d cp applyPerKeyFormat keyFormats :
  frames (secret_entry r environ d cp applyPerKeyFormat keyFormats).
Proof.
  intros env [originalKey value]. unfold secret_entry. cbn [fst snd].
  destruct (GoString.TrimSpace_is_empty originalKey).
  { simpl. by rewrite (left_id_L ∅ (∪)). }
  destruct (is_nil (Some value)).
  { simpl. by rewrite (left_id_L ∅ (∪)). }
  destruct (if applyPerKeyFormat then _ else _) as [[[keys [err|]]|]|msg];
    simpl; rewrite ?(left_id_L ∅ (∪)); try done.
  rewrite (for_each_frames _ keys env (frames_secret_emit r environ d cp value)).
  apply flow_of_lift.
Qed.

Lemma foldl_service_pair c env l :
  foldl (service_pair c) env l = foldl (service_pair c) ∅ l ∪ env.
Proof.
  revert env. induction l as [|kv l IH]; intros env; simpl.
  - by rewrite (left_id_L ∅ (∪)).
  - rewrite (IH (service_pair c env kv)), (IH (service_pair c ∅ kv)).
    unfold service_pair. by rewrite (insert_over env), (assoc_L (∪)).
Qed.

Lemma frames_service_entry r o d : frames (service_entry r o d).
Proof.
  intros env ser. unfold service_entry.
  destruct (serKV_of _ _) as [serKV|err]; simpl.
  - by rewrite foldl_service_pair.
  - by rewrite (left_id_L ∅ (∪)).
Qed.

Lemma appendPrefixes_frame r env d data :
  appendPrefixes r env d data = lift_result env (appendPrefixes r ∅ d data).
Proof.
  destruct data; simpl; rewrite ?(left_id_L ∅ (∪)); try done.
  apply for_each_frames, frames_prefix_pair.
Qed.

Lemma appendSecrets_frame r o environ env d data :
  appendSecrets r o environ env d data
  = lift_result env (appendSecrets r o environ ∅ d data).
Proof.
  destruct data; simpl; rewrite ?(left_id_L ∅ (∪)); try done.
  destruct (secret_setup r d s) as [[[[valueMap cp] apk] keyFormats]|]; simpl;
    [|done].
  apply for_each_frames, frames_secret_entry.
Qed.

Lemma appendServices_frame r o env d data :
  appendServices r o env d data = lift_result env (appendServices r o ∅ d data).
Proof.
  destruct data; simpl; rewrite ?(left_id_L ∅ (∪)); try done.
  apply for_each_frames, frames_service_entry.
Qed.

(** ** C5: vault secrets are registered after consul prefixes *)

Lemma init_prefixes_deps environ new ps r r' (P : Dependency → Prop) :
  (∀ s d, new s = Ok d → P d) →
  init_prefixes environ new ps r = Ok r' →
  ∃ ds, Runner.dependencies r' = (Runner.dependencies r ++ ds)%list ∧ Forall P ds.
Proof.
  intros Hnew. revert r. induction ps as [|p ps IH]; intros r; simpl.
  - intros [= <-]. exists []. by rewrite app_nil_r.
  - destruct (applyPathTemplate _ _) as [path [err|]]; [done|].
    destruct (new path) as [d|err] eqn:Hd; simpl; [|done].
    intros Hr. apply IH in Hr as (ds & -> & Hds). exists (d :: ds). split.
    + simpl. by rewrite <- app_assoc.
    + constructor; eauto.
Qed.

Lemma init_services_deps new ss r r' (P : Dependency → Prop) :
  (∀ s d, new s = Ok d → P d) →
  init_services new ss r = Ok r' →
  ∃ ds, Runner.dependencies r' = (Runner.dependencies r ++ ds)%list ∧ Forall P ds.
Proof.
  intros Hnew. revert r. induction ss as [|s ss IH]; intros r; simpl.
  - intros [= <-]. exists []. by rewrite app_nil_r.
  - destruct (new _) as [d|err] eqn:Hd; simpl; [|done].
    intros Hr. apply IH in Hr as (ds & -> & Hds). exists (d :: ds). split.
    + simpl. by rewrite <- app_assoc.
    + constructor; eauto.
Qed.

(** [init] lists the consul prefixes, then the services, then the vault
    secrets. *)
Lemma init_order environ r r' :
  init environ r = Ok r' →
  ∃ kvs svs secs,
    Runner.dependencies r' = (Runner.dependencies r ++ kvs ++ svs ++ secs)%list
    ∧ Forall (λ d, is_secret d = false) kvs
    ∧ Forall (λ d, is_secret d = false) svs
    ∧ Forall (λ d, is_secret d = true) secs.
Proof.
  unfold init.
  destruct (init_prefixes _ NewKVListQuery _ r) as [r1|] eqn:H1; simpl; [|done].
  destruct (init_services _ _ r1) as [r2|] eqn:H2; simpl; [|done].
  intros H3.
  apply (init_prefixes_deps _ _ _ _ _ (λ d, is_secret d = false)) in H1
    as (kvs & E1 & Hk);
    [|intros q d; unfold NewKVListQuery; destruct (parseKVList q);
      simpl; intros [= <-]; reflexivity].
  apply (init_services_deps _ _ _ _ (λ d, is_secret d = false)) in H2
    as (svs & E2 & Hs);
    [|intros q d; unfold NewCatalogServiceQuery; destruct (parseCatalogService q);
      simpl; intros [= <-]; reflexivity].
  apply (init_prefixes_deps _ _ _ _ _ (λ d, is_secret d = true)) in H3
    as (secs & E3 & Hv);
    [|intros q d; unfold NewVaultReadQuery; destruct (parseVaultRead q);
      simpl; intros [= <-]; reflexivity].
  exists kvs, svs, secs. rewrite E3, E2, E1, <- !app_assoc. done.
Qed.

Lemma Receive_all_deps r l :
  Runner.dependencies (foldl (λ r (dd : Dependency * Payload), Receive r dd.1 dd.2) r l)
  = Runner.dependencies r.
Proof. revert r. induction l as [|[d x] l IH]; intros r; simpl; [done|]. by rewrite IH. Qed.

Lemma Receive_comm r dk ds pk ps :
  is_kv dk = true → is_secret ds = true →
  Receive (Receive r ds ps) dk pk = Receive (Receive r dk pk) ds ps.
Proof.
  intros Hk Hs. destruct dk; try discriminate. destruct ds; try discriminate.
  unfold Receive, with_data. simpl. f_equal. apply insert_insert_ne. discriminate.
Qed.

Lemma build_app r o environ env pre post :
  build r o environ env (pre ++ post) =
  match build r o environ env pre with
  | Done (Built env') => build r o environ env' post
  | other => other
  end.
Proof.
  revert env. induction pre as [|d pre IH]; intros env; simpl; [done|].
  destruct (Runner.data r !! dep_String d) as [data|]; [|done].
  destruct d; try done.
  - destruct (appendPrefixes _ _ _ _) as [[env' err]|]; simpl; [apply IH|done].
  - destruct (appendSecrets _ _ _ _ _ _) as [[env' err]|]; simpl; [apply IH|done].
  - destruct (appendServices _ _ _ _ _) as [[env' err]|]; simpl; [apply IH|done].
Qed.

(** One step of the build: the data of [d] is there, and what [d] emits
    on its own is laid over the environment. *)
Lemma build_cons r o environ env d rest res :
  build r o environ env (d :: rest) = Done (Built res) →
  ∃ em err,
    emitted_by r o environ d = Done (em, err)
    ∧ is_Some (Runner.data r !! dep_String d)
    ∧ build r o environ (em ∪ env) rest = Done (Built res).
Proof.
  simpl. unfold emitted_by.
  destruct (Runner.data r !! dep_String d) as [data|]; [|done].
  destruct d; try done.
  - rewrite appendPrefixes_frame.
    destruct (appendPrefixes r ∅ _ data) as [[em err]|]; simpl; [|done]. eauto 6.
  - rewrite appendSecrets_frame.
    destruct (appendSecrets r o environ ∅ _ data) as [[em err]|]; simpl; [|done].
    eauto 6.
  - rewrite appendServices_frame.
    destruct (appendServices r o ∅ _ data) as [[em err]|]; simpl; [|done]. eauto 6.
Qed.

Lemma build_keeps r o environ K v post env0 env :
  Forall (λ d, ∀ em err, emitted_by r o environ d = Done (em, err) →
               em !! K = None ∨ em !! K = Some v) post →
  env0 !! K = Some v →
  build r o environ env0 post = Done (Built env) →
  env !! K = Some v.
Proof.
  intros Hpost. revert env0. induction Hpost as [|d post Hd _ IH]; intros env0 H0.
  - simpl. by intros [= <-].
  - intros (em & err & Hem & _ & Hrest)%build_cons.
    apply (IH (em ∪ env0)); [|done].
    destruct (Hd em err Hem) as [HK|HK].
    + by rewrite lookup_union_r.
    + by apply lookup_union_Some_l.
Qed.

Lemma after_secret (nons secs pre post : list Dependency) ds :
  Forall (λ d, is_secret d = false) nons →
  Forall (λ d, is_secret d = true) secs →
  is_secret ds = true →
  (nons ++ secs)%list = (pre ++ ds :: post)%list →
  Forall (λ d, is_secret d = true) post.
Proof.
  intros Hnons Hsecs Hds. revert pre.
  induction Hnons as [|n nons Hn _ IH]; intros pre; simpl.
  - intros ->. apply Forall_app in Hsecs as [_ Hsecs].
    by apply Forall_cons in Hsecs as [_ Hsecs].
  - destruct pre as [|p pre]; simpl; intros [= ? E]; [congruence|]. by apply (IH pre).
Qed.

(** C5 (as amended). In a runner set up by [init], take a consul
    dependency and a vault dependency that both emit the key K in a
    build. Their data may have arrived in either order: the snapshot is
    the same. If no secret registered after the vault dependency emits K,
    the built environment gives K that secret's value: every consul
    dependency (and every service) is registered, and so processed,
    before every vault dependency, and among the secrets the last one to
    write K decides. *)
Theorem secret_overrides_kv environ0 environ cfg once r0 earlier o dk ds pk ps
    pre post :
  NewRunner environ0 cfg once = Ok r0 →
  is_kv dk = true →
  is_secret ds = true →
  Runner.dependencies r0 = (pre ++ ds :: post)%list →
  let r := foldl (λ r (dd : Dependency * Payload), Receive r dd.1 dd.2) r0 earlier in
  let r1 := Receive (Receive r dk pk) ds ps in
  let r2 := Receive (Receive r ds ps) dk pk in
  r2 = r1
  ∧ ∀ env K vk v,
      build r1 o environ ∅ (Runner.dependencies r1) = Done (Built env) →
      emits r1 o environ dk K vk →
      emits r1 o environ ds K v →
      (∀ d v', d ∈ post → is_secret d = true → d ≠ ds →
               ¬ emits r1 o environ d K v') →
      env !! K = Some v.
Proof.
  intros Hinit Hk Hs Hsplit r r1 r2. split; [by apply Receive_comm|].
  intros env K vk v Hbuild _ (em & err & Hem & HK) Hothers.
  assert (Hdeps : Runner.dependencies r1 = Runner.dependencies r0).
  { unfold r1, r. simpl. apply Receive_all_deps. }
  rewrite Hdeps, Hsplit in Hbuild.
  apply init_order in Hinit as (kvs & svs & secs & E & Hkvs & Hsvs & Hsecs).
  simpl in E. rewrite Hsplit, app_assoc in E.
  assert (Hpost : Forall (λ d, is_secret d = true) post).
  { apply (after_secret (kvs ++ svs) secs pre post ds); auto.
    by apply Forall_app. }
  rewrite build_app in Hbuild.
  destruct (build r1 o environ ∅ pre) as [[env1| |]|] eqn:Hpre; try done.
  apply build_cons in Hbuild as (em' & err' & Hem' & _ & Hrest).
  rewrite Hem in Hem'. injection Hem' as <- <-.
  apply (build_keeps r1 o environ K v post (em ∪ env1));
    [|by apply lookup_union_Some_l|done].
  apply Forall_forall. intros d Hd em' err' Hem'.
  destruct (decide (d = ds)) as [->|Hne].
  - rewrite Hem in Hem'. injection Hem' as <- <-. by right.
  - destruct (em' !! K) as [v'|] eqn:HK'; [|by left]. exfalso.
    apply (Hothers d v'); [done| |done|by exists em', err'].
    rewrite Forall_forall in Hpost. by apply Hpost.
Qed.

(** ** C7: the order of visit of a map, and the unchanged environment *)

Lemma disjoint_all_cons m ms :
  disjoint_all (m :: ms) = true ↔ Forall (λ m', m ##ₘ m') ms ∧ disjoint_all ms = true.
Proof.
  simpl. rewrite andb_true_iff, forallb_forall, Forall_forall.
  setoid_rewrite bool_decide_eq_true. setoid_rewrite list_elem_of_In. done.
Qed.

Lemma disjoint_all_perm ms ms' :
  ms ≡ₚ ms' → disjoint_all ms = true → disjoint_all ms' = true.
Proof.
  induction 1 as [|m ms ms' Hp IH|m1 m2 ms|ms1 ms2 ms3 _ IH1 _ IH2]; auto.
  - rewrite !disjoint_all_cons. intros [Hm Hms]. split; [by rewrite <- Hp|auto].
  - rewrite !disjoint_all_cons, !Forall_cons. intros [[H12 H1] [H2 Hms]].
    repeat split; first [done | by symmetry].
Qed.

Lemma union_fold_perm ms ms' (env : gmap string string) :
  ms ≡ₚ ms' → disjoint_all ms = true →
  foldl (λ acc m, m ∪ acc) env ms = foldl (λ acc m, m ∪ acc) env ms'.
Proof.
  intros Hp. revert env.
  induction Hp as [|m ms ms' Hp IH|m1 m2 ms|ms1 ms2 ms3 Hp1 IH1 _ IH2];
    intros env Hd; simpl.
  - done.
  - apply disjoint_all_cons in Hd as [_ Hd]. by apply IH.
  - apply disjoint_all_cons in Hd as [[H12 _]%Forall_cons _].
    by rewrite !(assoc_L (∪)), (map_union_comm m1 m2).
  - rewrite IH1 by done. apply IH2. by apply (disjoint_all_perm ms1).
Qed.

Lemma for_each_emissions {A}
    (body : gmap string string → A → Outcome (Flow (gmap string string))) l env :
  frames body →
  forallb (λ a, bool_decide (is_Some (emission body a))) l = true →
  for_each body env l =
  Done (foldl (λ acc m, m ∪ acc) env
          (map (λ a, default ∅ (emission body a)) l), None).
Proof.
  intros Hf. revert env. induction l as [|a l IH]; intros env; simpl; [done|].
  rewrite andb_true_iff, bool_decide_eq_true. intros [[em Hem] Hl].
  rewrite (Hf env a), Hem. unfold emission in Hem.
  destruct (body ∅ a) as [[em'|]|]; try done. injection Hem as ->. simpl.
  by apply IH.
Qed.

Lemma collision_free_perm {A}
    (body : gmap string string → A → Outcome (Flow (gmap string string))) l l' :
  l ≡ₚ l' → collision_free body l = true → collision_free body l' = true.
Proof.
  unfold collision_free. intros Hp. rewrite !andb_true_iff. intros [Hall Hdis]. split.
  - rewrite forallb_forall in *. intros a Ha. apply Hall.
    rewrite <- !list_elem_of_In in *. by rewrite Hp.
  - eapply disjoint_all_perm; [|exact Hdis]. by apply fmap_Permutation.
Qed.

(** A collision-free loop gives the same result on every enumeration of
    its elements. *)
Lemma for_each_perm {A}
    (body : gmap string string → A → Outcome (Flow (gmap string string))) l l' env :
  frames body → collision_free body l = true → l ≡ₚ l' →
  for_each body env l' = for_each body env l.
Proof.
  intros Hf Hl Hp. pose proof (collision_free_perm body l l' Hp Hl) as Hl'.
  unfold collision_free in Hl, Hl'. apply andb_true_iff in Hl as [Hall Hdis].
  apply andb_true_iff in Hl' as [Hall' Hdis'].
  rewrite !for_each_emissions by done. f_equal. f_equal.
  apply union_fold_perm; [|done]. apply fmap_Permutation. by symmetry.
Qed.

Lemma for_each_ext {A S} (body1 body2 : S → A → Outcome (Flow S)) s l :
  (∀ s a, a ∈ l → body1 s a = body2 s a) →
  for_each body1 s l = for_each body2 s l.
Proof.
  revert s. induction l as [|a l IH]; intros s Hb; simpl; [done|].
  rewrite Hb by apply list_elem_of_here.
  destruct (body2 s a) as [[s'|s' err]|msg]; try done.
  apply IH. intros s0 a0 Ha0. apply Hb. by apply list_elem_of_further.
Qed.

Lemma appendSecrets_order r o1 o2 environ env d typed :
  secret_order_free r environ d typed = true →
  appendSecrets r o1 environ env d (SecretData typed)
  = appendSecrets r o2 environ env d (SecretData typed).
Proof.
  unfold secret_order_free, appendSecrets.
  destruct (secret_setup r d typed) as [[[[valueMap cp] apk] keyFormats]|];
    simpl; [|done].
  intros Hfree.
  rewrite (for_each_perm _ (map_to_list valueMap) (range_of o1 valueMap));
    [|apply frames_secret_entry|done|symmetry; apply range_perm].
  rewrite (for_each_perm _ (map_to_list valueMap) (range_of o2 valueMap));
    [|apply frames_secret_entry|done|symmetry; apply range_perm].
  done.
Qed.

Lemma frames_service_pair c :
  frames (λ env kv, Done (Next (service_pair c env kv))).
Proof. intros env kv. simpl. unfold service_pair. by rewrite (insert_over env). Qed.

Lemma service_entry_order r o1 o2 d env ser :
  service_order_free r d ser = true →
  service_entry r o1 d env ser = service_entry r o2 d env ser.
Proof.
  unfold service_order_free, service_entry.
  destruct (serKV_of _ ser) as [serKV|err]; [|done].
  intros Hfree. do 2 f_equal.
  pose proof (for_each_perm _ (map_to_list serKV) (range_of o1 serKV) env
                (frames_service_pair (Runner.config r)) Hfree
                (symmetry (range_perm o1 _ serKV))) as H1.
  pose proof (for_each_perm _ (map_to_list serKV) (range_of o2 serKV) env
                (frames_service_pair (Runner.config r)) Hfree
                (symmetry (range_perm o2 _ serKV))) as H2.
  rewrite !(for_each_Next _ (service_pair (Runner.config r))) in H1, H2 by done.
  congruence.
Qed.

Lemma build_order r o1 o2 environ env deps :
  forallb (order_free r environ) deps = true →
  build r o1 environ env deps = build r o2 environ env deps.
Proof.
  revert env. induction deps as [|d deps IH]; intros env; simpl; [done|].
  rewrite andb_true_iff. intros [Hd Hdeps]. unfold order_free in Hd.
  destruct (Runner.data r !! dep_String d) as [data|] eqn:Hdata; [|done].
  destruct d; try done.
  - destruct (appendPrefixes _ _ _ _) as [[env' err]|]; simpl; [by apply IH|done].
  - assert (Hsame : appendSecrets r o1 environ env (VaultReadQuery path) data
                    = appendSecrets r o2 environ env (VaultReadQuery path) data).
    { rewrite Hdata in Hd. destruct data; try done. by apply appendSecrets_order. }
    rewrite Hsame.
    destruct (appendSecrets r o2 _ _ _ _) as [[env' err]|]; simpl; [by apply IH|done].
  - assert (Hsame : appendServices r o1 env (CatalogServiceQuery name) data
                    = appendServices r o2 env (CatalogServiceQuery name) data).
    { rewrite Hdata in Hd. destruct data; try done. simpl. apply for_each_ext.
      intros env0 ser Hser. apply service_entry_order.
      rewrite forallb_forall in Hd. apply Hd. by apply list_elem_of_In. }
    rewrite Hsame.
    destruct (appendServices r o2 _ _ _) as [[env' err]|]; simpl; [by apply IH|done].
Qed.

Lemma same_env_eq old env : same_env old env = true ↔ old = Some env.
Proof.
  unfold same_env. destruct old as [old|]; [|done].
  rewrite andb_true_iff, !bool_decide_eq_true. split.
  - by intros [_ ->].
  - by intros [= ->].
Qed.


(** ** C1 and C2: the environment of the child *)

Lemma anyGlobMatch_spec s patterns :
  anyGlobMatch s patterns = true ↔ ∃ g, g ∈ patterns ∧ Match g s = true.
Proof.
  unfold anyGlobMatch. rewrite existsb_exists.
  setoid_rewrite list_elem_of_In. done.
Qed.

Lemma passes_spec e (keys0 : gset string) K :
  let allowlist := combineLists (EnvConfig.Allowlist e) (EnvConfig.AllowlistDeprecated e) in
  let keys1 :=
    if bool_decide (0 < length allowlist)%nat
    then filter (λ k, anyGlobMatch k allowlist) keys0 else keys0 in
  let denylist := combineLists (EnvConfig.Denylist e) (EnvConfig.DenylistDeprecated e) in
  let keys2 :=
    if bool_decide (0 < length denylist)%nat
    then filter (λ k, ¬ anyGlobMatch k denylist) keys1 else keys1 in
  K ∈ keys2 ↔ K ∈ keys0 ∧ passes e K.
Proof.
  intros allowlist keys1 denylist keys2. unfold passes.
  change (allowlist_of e) with allowlist. change (denylist_of e) with denylist.
  assert (H1 : K ∈ keys1 ↔ K ∈ keys0
               ∧ (allowlist = [] ∨ ∃ g, g ∈ allowlist ∧ Match g K = true)).
  { unfold keys1. case_bool_decide as Hlen.
    - rewrite elem_of_filter, Is_true_true, anyGlobMatch_spec.
      destruct allowlist; [simpl in Hlen; lia|]. naive_solver.
    - destruct allowlist; [naive_solver | simpl in Hlen; lia]. }
  unfold keys2. case_bool_decide as Hlen.
  - rewrite elem_of_filter, H1, Is_true_true, anyGlobMatch_spec. naive_solver.
  - rewrite H1. destruct denylist; [|simpl in Hlen; lia].
    split; [|naive_solver]. intros [? ?]. repeat split; auto.
    intros (g & Hg & _). by apply elem_of_nil in Hg.
Qed.

Lemma applyConfigEnv_filters r env custom :
  let e := ExecConfig.Env (Config.Exec (Runner.config r)) in
  parse_custom (EnvConfig.Custom e) = Done custom →
  BoolVal (EnvConfig.Pristine e) = false →
  ∃ kept,
    applyConfigEnv r env = Done (custom ∪ kept)
    ∧ ∀ K v, kept !! K = Some v ↔ env !! K = Some v ∧ passes e K.
Proof.
  intros e Hcustom Hp. unfold applyConfigEnv. fold e. rewrite Hcustom. simpl.
  rewrite Hp. eexists. split; [reflexivity|]. intros K v.
  rewrite map_lookup_filter_Some. cbn [fst].
  rewrite (passes_spec e (dom env) K), elem_of_dom.
  split; [naive_solver|]. intros [HK Hpass]. split; [done|]. split; [eauto|done].
Qed.

Lemma applyConfigEnv_pristine r env custom :
  let e := ExecConfig.Env (Config.Exec (Runner.config r)) in
  parse_custom (EnvConfig.Custom e) = Done custom →
  BoolVal (EnvConfig.Pristine e) = true →
  applyConfigEnv r env = Done custom.
Proof.
  intros e Hcustom Hp. unfold applyConfigEnv. fold e. rewrite Hcustom. simpl.
  rewrite Hp. case_bool_decide as Hsize; [done|].
  f_equal. symmetry. apply map_size_empty_iff. lia.
Qed.

(** C1 (as amended). Without [exec.env.pristine], for every key K that is
    not custom: K appears in the child environment if and only if it is a
    key of the merged environment (the inherited variables with the
    emitted ones laid over them) and (the allowlist is empty or one of
    its globs matches K) and no denylist glob matches K, and then with
    its merged value. Custom keys bypass the filters and take the custom
    value; emitted keys do not bypass them. *)
Theorem filters_on_merged_env r environ emitted custom ambient :
  let e := ExecConfig.Env (Config.Exec (Runner.config r)) in
  BoolVal (EnvConfig.Pristine e) = false →
  parse_custom (EnvConfig.Custom e) = Done custom →
  ambientEnv r environ = Done ambient →
  ∃ res,
    childEnv r environ emitted = Done res
    ∧ (∀ K v, custom !! K = Some v → res !! K = Some v)
    ∧ (∀ K, custom !! K = None →
         (is_Some (res !! K) ↔
            (is_Some (emitted !! K) ∨ is_Some (ambient !! K)) ∧ passes e K)
         ∧ (is_Some (res !! K) → res !! K = (emitted ∪ ambient) !! K)).
Proof.
  intros e Hp Hcustom Hamb. unfold childEnv. rewrite Hamb. simpl.
  destruct (applyConfigEnv_filters r (emitted ∪ ambient) custom Hcustom Hp)
    as (kept & -> & Hkept).
  eexists. split; [reflexivity|]. split.
  - intros K v HK. by apply lookup_union_Some_l.
  - intros K HK. rewrite lookup_union_r by done. split.
    + rewrite <- lookup_union_is_Some. unfold is_Some.
      setoid_rewrite Hkept. naive_solver.
    + intros [v Hv]. rewrite Hv. apply Hkept in Hv as [-> _]. done.
Qed.

(** C2 (as amended). In pristine mode the child environment does not
    depend on the process environment, and each of its keys is custom or
    emitted. With [exec.env.pristine] set it is exactly the custom
    entries, and the emitted entries are left out. Without it, it is the
    custom entries laid over the emitted entries that pass the allowlist
    and the denylist: all of them when both lists are empty. *)
Theorem pristine_child_env r emitted custom :
  let e := ExecConfig.Env (Config.Exec (Runner.config r)) in
  BoolVal (Config.Pristine (Runner.config r)) = true →
  parse_custom (EnvConfig.Custom e) = Done custom →
  ∃ res,
    (∀ environ', childEnv r environ' emitted = Done res)
    ∧ (∀ K, is_Some (res !! K) → is_Some (custom !! K) ∨ is_Some (emitted !! K))
    ∧ (BoolVal (EnvConfig.Pristine e) = true → res = custom)
    ∧ (BoolVal (EnvConfig.Pristine e) = false →
         (∀ K v, res !! K = Some v ↔
            custom !! K = Some v
            ∨ custom !! K = None ∧ emitted !! K = Some v ∧ passes e K)
         ∧ (allowlist_of e = [] → denylist_of e = [] → res = custom ∪ emitted)).
Proof.
  intros e Htop Hcustom.
  assert (Hchild : ∀ environ', childEnv r environ' emitted = applyConfigEnv r emitted).
  { intros environ'. unfold childEnv, ambientEnv. rewrite Htop. simpl.
    by rewrite (right_id_L ∅ (∪)). }
  destruct (BoolVal (EnvConfig.Pristine e)) eqn:Hp.
  - exists custom. split; [|split; [|split]]; try done.
    + intros environ'. rewrite Hchild. by apply applyConfigEnv_pristine.
    + auto.
  - destruct (applyConfigEnv_filters r emitted custom Hcustom Hp)
      as (kept & Happly & Hkept).
    exists (custom ∪ kept).
    assert (Hres : ∀ K v, (custom ∪ kept) !! K = Some v ↔
              custom !! K = Some v
              ∨ custom !! K = None ∧ emitted !! K = Some v ∧ passes e K).
    { intros K v. rewrite lookup_union_Some_raw, Hkept. done. }
    split; [|split; [|split]]; try done.
    + intros environ'. by rewrite Hchild.
    + intros K [v Hv]. apply Hres in Hv. unfold is_Some. naive_solver.
    + intros _. split; [exact Hres|]. intros Ha Hd. f_equal.
      apply map_eq. intros K. apply option_eq. intros v. rewrite Hkept.
      unfold passes. fold e. rewrite Ha, Hd. split; [naive_solver|].
      intros HK. repeat split; auto. intros (g & Hg & _).
      by apply elem_of_nil in Hg.
Qed.

(** ** C10: the type assertions of appendSecrets *)


(** ** C9: Must *)

(** C9. [Must] hands back the pointer [Parse] returned, and logs the
    error if there is one; [Parse] returns a nil pointer with every
    error. So [Must] returns nil, not a configuration, whenever [Parse]
    fails. *)
Theorem Must_returns_nil_on_error {C} `{!ConfigLibs C} (s : string) :
  match Parse s with
  | (c, Some msg) => c = None ∧ Must s = (None, [msg])
  | (c, None) => is_Some c ∧ Must s = (c, [])
  end.
Proof.
  unfold Must, Parse.
  destruct (hcl_Decode s) as [[]|]; simpl; try done.
  destruct mapstructure_NewDecoder; simpl; try done.
  destruct (mapstructure_Decode _); simpl; eauto.
Qed.

(** ** C8: the quiescence timers *)

Lemma Receive_all_fields r l :
  let r' := foldl (λ r (dd : Dependency * Payload), Receive r dd.1 dd.2) r l in
  Runner.config r' = Runner.config r
  ∧ Runner.minTimer r' = Runner.minTimer r
  ∧ Runner.maxTimer r' = Runner.maxTimer r
  ∧ Runner.env r' = Runner.env r
  ∧ Runner.child r' = Runner.child r.
Proof.
  revert r. induction l as [|[d x] l IH]; intros r; simpl; [done|].
  destruct (IH (Receive r d x)) as (-> & -> & -> & -> & ->). done.
Qed.

Lemma Run_timers r o environ r' effects res :
  Run r o environ = Done (r', effects, res) →
  Runner.minTimer r' = Runner.minTimer r ∧ Runner.maxTimer r' = Runner.maxTimer r.
Proof.
  unfold Run. destruct (build _ _ _ _ _) as [[env|?|?]|]; simpl; try by intros [= <- _ _].
  destruct (same_env _ _); [by intros [= <- _ _]|].
  destruct (childEnv _ _ _); simpl; [|done].
  destruct (startChild _ _); by intros [= <- _ _].
Qed.


End Properties.

(** * Further properties of the runner and of the configuration *)

Section Further.
Context `{!Libs}.

(** ** Run: readiness and the unchanged environment *)

Lemma build_missing r o environ env deps res :
  (∃ d, d ∈ deps ∧ Runner.data r !! dep_String d = None) →
  build r o environ env deps = Done res →
  (∃ d, res = MissingData d) ∨ (∃ d, res = UnknownType d).
Proof.
  revert env. induction deps as [|d deps IH]; intros env (d0 & Hin & Hnone).
  { by apply elem_of_nil in Hin. }
  simpl. destruct (Runner.data r !! dep_String d) as [data|] eqn:Hdata.
  - assert (Hrest : ∃ d, d ∈ deps ∧ Runner.data r !! dep_String d = None).
    { apply elem_of_cons in Hin as [->|Hin]; [congruence|eauto]. }
    destruct d.
    + destruct (appendPrefixes _ _ _ _) as [[env' err]|]; simpl; [eauto|done].
    + destruct (appendSecrets _ _ _ _ _ _) as [[env' err]|]; simpl; [eauto|done].
    + destruct (appendServices _ _ _ _ _) as [[env' err]|]; simpl; [eauto|done].
    + intros [= <-]. eauto.
  - intros [= <-]. eauto.
Qed.

(** While a registered dependency has no data, [Run] touches nothing: the
    runner is unchanged and no child is stopped or started; it reports
    "not ready", or the error of an unknown dependency met earlier in the
    list. *)
Theorem Run_not_ready r o environ r' effects res :
  (∃ d, d ∈ Runner.dependencies r ∧ Runner.data r !! dep_String d = None) →
  Run r o environ = Done (r', effects, res) →
  r' = r ∧ effects = [] ∧ (res = NotReady ∨ ∃ msg, res = Failed msg).
Proof.
  intros Hmissing. unfold Run.
  destruct (build r o environ ∅ _) as [b|] eqn:Hbuild; simpl; [|done].
  destruct (build_missing _ _ _ _ _ _ Hmissing Hbuild) as [[d ->]|[d ->]];
    intros [= <- <- <-]; eauto 6.
Qed.

Lemma appendPrefixes_reads r1 r2 env d x :
  same_inputs r1 r2 → appendPrefixes r1 env d x = appendPrefixes r2 env d x.
Proof. destruct r1, r2. intros (Hc & Hp & Hs & Hd). simpl in *. by subst. Qed.

Lemma appendSecrets_reads r1 r2 o environ env d x :
  same_inputs r1 r2 →
  appendSecrets r1 o environ env d x = appendSecrets r2 o environ env d x.
Proof. destruct r1, r2. intros (Hc & Hp & Hs & Hd). simpl in *. by subst. Qed.

Lemma appendServices_reads r1 r2 o env d x :
  same_inputs r1 r2 → appendServices r1 o env d x = appendServices r2 o env d x.
Proof. destruct r1, r2. intros (Hc & Hp & Hs & Hd). simpl in *. by subst. Qed.

Lemma build_reads r1 r2 o environ env deps :
  same_inputs r1 r2 →
  build r1 o environ env deps = build r2 o environ env deps.
Proof.
  intros Hsame. pose proof Hsame as (_ & _ & _ & Hd).
  revert env. induction deps as [|d deps IH]; intros env; [done|].
  simpl. rewrite Hd. destruct (_ !! _) as [x|]; [|done].
  destruct d; try done.
  - rewrite (appendPrefixes_reads r1 r2) by done.
    destruct (appendPrefixes r2 _ _ _) as [[env' e']|]; simpl; [apply IH|done].
  - rewrite (appendSecrets_reads r1 r2) by done.
    destruct (appendSecrets r2 _ _ _ _ _) as [[env' e']|]; simpl; [apply IH|done].
  - rewrite (appendServices_reads r1 r2) by done.
    destruct (appendServices r2 _ _ _ _) as [[env' e']|]; simpl; [apply IH|done].
Qed.

Lemma build_with_env r e o environ env deps :
  build (with_env r e) o environ env deps = build r o environ env deps.
Proof. apply build_reads. by destruct r. Qed.

Lemma build_with_child r c o environ env deps :
  build (with_child r c) o environ env deps = build r o environ env deps.
Proof. apply build_reads. by destruct r. Qed.

Lemma Run_same r o environ env :
  build r o environ ∅ (Runner.dependencies r) = Done (Built env) →
  same_env (Runner.env r) env = true →
  Run r o environ = Done (r, [], Unchanged).
Proof. intros Hbuild Hsame. unfold Run. rewrite Hbuild. simpl. by rewrite Hsame. Qed.

Lemma same_env_refl env : same_env (Some env) env = true.
Proof. unfold same_env. by rewrite !bool_decide_eq_true_2. Qed.

(** A tick that went as far as filing a new environment settles the
    runner: the next tick on the same data, with the maps ranged in the
    same order, reports no change and touches no child. This holds when
    the child was started, and also when starting it failed: the
    environment is filed before the child is spawned, so the failed start
    is not tried again. A tick that met a dependency of unknown type
    changes nothing and fails again. *)
Theorem Run_settles r o environ r' effects res :
  Run r o environ = Done (r', effects, res) →
  match res with
  | Started _ => Run r' o environ = Done (r', [], Unchanged)
  | Failed msg =>
    Run r' o environ = Done (r', [], Unchanged)
    ∨ (r' = r ∧ effects = [] ∧ Run r' o environ = Done (r', [], Failed msg))
  | NotReady | Unchanged =>
    r' = r ∧ effects = [] ∧ Run r' o environ = Done (r', [], res)
  end.
Proof.
  intros Hrun. pose proof Hrun as Hrun0. unfold Run in Hrun.
  destruct (build r o environ ∅ _) as [[env|d|d]|] eqn:Hbuild; simpl in Hrun;
    [|injection Hrun as <- <- <-; by rewrite Hrun0
     |injection Hrun as <- <- <-; right; by rewrite Hrun0|done].
  destruct (same_env (Runner.env r) env) eqn:Hsame;
    [injection Hrun as <- <- <-; by rewrite Hrun0|].
  destruct (childEnv _ environ env) as [filteredEnv|]; simpl in Hrun; [|done].
  assert (Hnext : ∀ c,
    Run (with_child (with_env r (Some env)) c) o environ
    = Done (with_child (with_env r (Some env)) c, [], Unchanged)).
  { intros c. apply (Run_same _ _ _ env); [|apply same_env_refl].
    by rewrite build_with_child, build_with_env. }
  destruct (startChild _ _) as [err|]; injection Hrun as <- <- <-.
  - left. replace (with_env r (Some env))
      with (with_child (with_env r (Some env)) (Runner.child r)) by (by destruct r).
    apply Hnext.
  - apply Hnext.
Qed.

(** [Run] reports "unchanged" exactly when the previous environment is a
    map equal to the one just built, and then it leaves the runner and
    the child alone. A runner whose environment is still nil never
    reports it: its first complete build goes on to start a child, even
    with nothing emitted. *)
Theorem Run_unchanged_iff r o environ :
  (∀ r' effects,
     Run r o environ = Done (r', effects, Unchanged) ↔
     r' = r ∧ effects = []
     ∧ ∃ env, build r o environ ∅ (Runner.dependencies r) = Done (Built env)
              ∧ Runner.env r = Some env)
  ∧ (Runner.env r = None →
     ∀ r' effects, Run r o environ ≠ Done (r', effects, Unchanged)).
Proof.
  assert (Hiff : ∀ r' effects,
     Run r o environ = Done (r', effects, Unchanged) ↔
     r' = r ∧ effects = []
     ∧ ∃ env, build r o environ ∅ (Runner.dependencies r) = Done (Built env)
              ∧ Runner.env r = Some env).
  { intros r' effects. unfold Run. split.
    - destruct (build r o environ ∅ _) as [[env| |]|]; simpl; try done.
      destruct (same_env (Runner.env r) env) eqn:Hsame.
      + intros [= <- <-]. apply same_env_eq in Hsame. eauto.
      + destruct (childEnv _ _ _); simpl; [|done]. by destruct (startChild _ _).
    - intros (-> & -> & env & -> & Henv). simpl.
      by rewrite (proj2 (same_env_eq _ _) Henv). }
  split; [exact Hiff|]. intros Hnil r' effects HRun.
  apply Hiff in HRun as (_ & _ & env & _ & Henv). congruence.
Qed.

(** ** The loop: one child at a time *)

Lemma single_flight_app alive t1 t2 :
  single_flight alive (t1 ++ t2) =
  single_flight alive t1 && single_flight (alive_after alive t1) t2.
Proof.
  revert alive. induction t1 as [|[[c|c]|err|code] t1 IH]; intros alive; simpl;
    rewrite ?IH, ?andb_assoc; done.
Qed.

Lemma alive_after_app alive t1 t2 :
  alive_after alive (t1 ++ t2) = alive_after (alive_after alive t1) t2.
Proof.
  revert alive. induction t1 as [|[[c|c]|err|code] t1 IH]; intros alive; simpl;
    rewrite ?IH; done.
Qed.

Lemma Run_flight r o environ r' effects res :
  Run r o environ = Done (r', effects, res) →
  single_flight (Runner.child r) (map Child_effect effects) = true
  ∧ ((∀ msg, res ≠ Failed msg) →
     alive_after (Runner.child r) (map Child_effect effects) = Runner.child r').
Proof.
  unfold Run. destruct (build r o environ ∅ _) as [[env| |]|]; simpl; try done.
  - destruct (same_env _ _); [by intros [= <- <- <-]|].
    destruct (childEnv _ _ _); simpl; [|done].
    destruct (startChild _ _).
    + intros [= <- <- <-]. simpl. split; [|intros Hf; by destruct (Hf _ eq_refl)].
      destruct (Runner.child r); simpl; [|done]. by rewrite bool_decide_eq_true_2.
    + intros [= <- <- <-]. simpl. rewrite map_app, single_flight_app, alive_after_app.
      destruct (Runner.child r); simpl; [|done]. by rewrite bool_decide_eq_true_2.
  - by intros [= <- <- <-].
  - intros [= <- <- <-]. split; [done|]. intros Hf. by destruct (Hf _ eq_refl).
Qed.

Lemma rebuild_flight o environ st sent st' signals status :
  (∀ alive, single_flight alive sent = true ∧ alive_after alive sent = alive) →
  rebuild o environ st sent = Done (st', signals, status) →
  single_flight (Runner.child st.1) signals = true
  ∧ (status = Looping → alive_after (Runner.child st.1) signals = Runner.child st'.1).
Proof.
  intros Hsent. unfold rebuild.
  destruct (Run st.1 o environ) as [[[r effects] res]|] eqn:HRun; simpl; [|done].
  apply Run_flight in HRun as [Hfl Halive].
  destruct (Hsent (Runner.child st.1)) as [Hs1 Hs2].
  destruct res; intros [= <- <- <-]; simpl;
    rewrite ?single_flight_app, ?alive_after_app, ?Hs1, ?Hs2, ?Hfl; simpl;
    try (split; [done|]; intros _; by apply Halive).
  by split.
Qed.

Lemma Start_step_flight o environ st ev st' signals status :
  Start_step o environ st ev = Done (st', signals, status) →
  single_flight (Runner.child st.1) signals = true
  ∧ (status = Looping → alive_after (Runner.child st.1) signals = Runner.child st'.1).
Proof.
  destruct st as [r exitCh]. unfold Start_step. cbn [fst snd].
  destruct ev as [now first drained| | |err|err|code|].
  - pose proof (Receive_all_fields r (first :: drained)) as (_ & _ & _ & _ & Hch).
    cbn zeta in Hch. destruct (BoolVal _).
    + intros [= <- <- <-]. simpl in *. by rewrite Hch.
    + intros Hre. apply rebuild_flight in Hre; [|done]. simpl in *.
      by rewrite Hch in Hre.
  - intros Hre. by apply rebuild_flight in Hre.
  - intros Hre. by apply rebuild_flight in Hre.
  - destruct (Runner.once r); [by intros [= <- <- <-]|].
    intros Hre. by apply rebuild_flight in Hre.
  - destruct (Runner.once r); [by intros [= <- <- <-]|].
    intros Hre. by apply rebuild_flight in Hre.
  - intros Hre. by apply rebuild_flight in Hre.
  - by intros [= <- <- <-].
Qed.

(** Along any run of the loop, from any state, at most one child is
    alive: a child is started only after the one before it was stopped,
    and the child that is stopped is the current one. *)
Theorem Start_loop_single_flight o environ st events st' signals status :
  Start_loop o environ st events = Done (st', signals, status) →
  single_flight (Runner.child st.1) signals = true.
Proof.
  revert st signals. induction events as [|ev events IH]; intros st signals; simpl.
  { by intros [= <- <- <-]. }
  destruct (Start_step o environ st ev) as [[[st1 sig1] status1]|] eqn:Hstep;
    simpl; [|done].
  apply Start_step_flight in Hstep as [Hfl Halive].
  destruct status1; [|by intros [= <- <- <-]].
  destruct (Start_loop o environ st1 events) as [[[st2 sig2] status2]|] eqn:Hloop;
    simpl; [|done].
  intros [= <- <- <-]. rewrite single_flight_app, Hfl, Halive by done.
  by apply (IH st1).
Qed.

(** ** The loop: a window of quiescence *)

Lemma arrival_step o environ r exitCh now first drained :
  BoolVal (WaitConfig.Enabled (Config.Wait (Runner.config r))) = true →
  ∃ r',
    Start_step o environ (r, exitCh) (DataArrival now first drained)
    = Done ((r', exitCh), [], Looping)
    ∧ Runner.config r' = Runner.config r
    ∧ Runner.minTimer r'
      = Some (now + TimeDurationVal (WaitConfig.Min (Config.Wait (Runner.config r))))
    ∧ Runner.maxTimer r'
      = Some (default (now + TimeDurationVal
                               (WaitConfig.Max (Config.Wait (Runner.config r))))
                (Runner.maxTimer r))
    ∧ Runner.env r' = Runner.env r ∧ Runner.child r' = Runner.child r.
Proof.
  intros Hen.
  pose proof (Receive_all_fields r (first :: drained)) as (Hc & Hmin & Hmax & He & Hch).
  cbn zeta in *. unfold Start_step. cbn [fst snd].
  set (r1 := foldl _ r (first :: drained)) in *.
  rewrite Hc, Hen, Hmax. eexists. split; [reflexivity|]. simpl.
  repeat split; auto. by destruct (Runner.maxTimer r).
Qed.


(** ** Receive: the snapshot *)

(** After a run of deliveries the snapshot holds, under each identity,
    the data of the last delivery made under that identity, and what it
    held before where there was none. *)
Theorem snapshot_last_delivery r (deliveries : list (Dependency * Payload)) id :
  Runner.data (foldl (λ r dd, Receive r dd.1 dd.2) r deliveries) !! id =
  match last (filter (λ dd, dep_String dd.1 = id) deliveries) with
  | Some dd => Some dd.2
  | None => Runner.data r !! id
  end.
Proof.
  induction deliveries as [|[d x] deliveries IH] using rev_ind; [done|].
  rewrite foldl_app, filter_app, filter_cons, filter_nil. simpl.
  destruct (decide (dep_String d = id)) as [<-|Hne].
  - rewrite last_snoc. simpl. apply lookup_insert_eq.
  - rewrite app_nil_r, lookup_insert_ne by done. apply IH.
Qed.

(** ** init: every dependency is registered with its configuration *)

Lemma registered_mono r r' d :
  (∀ id, is_Some (Runner.configPrefixMap r !! id) →
         is_Some (Runner.configPrefixMap r' !! id)) →
  (∀ id, is_Some (Runner.configServiceMap r !! id) →
         is_Some (Runner.configServiceMap r' !! id)) →
  registered r d → registered r' d.
Proof. intros Hp Hs. destruct d; simpl; auto. Qed.

Lemma init_prefixes_registered environ new ps r r' :
  (∀ s d, new s = Ok d → is_kv d = true ∨ is_secret d = true) →
  Forall (registered r) (Runner.dependencies r) →
  init_prefixes environ new ps r = Ok r' →
  Forall (registered r') (Runner.dependencies r').
Proof.
  intros Hnew. revert r. induction ps as [|p ps IH]; intros r Hr; simpl.
  - by intros [= <-].
  - destruct (applyPathTemplate _ _) as [path [err|]]; [done|].
    destruct (new path) as [d|err] eqn:Hd; simpl; [|done].
    apply IH. simpl. apply Forall_app. split.
    + eapply Forall_impl; [exact Hr|]. intros d0. apply registered_mono; simpl; [|done].
      intros id. rewrite lookup_insert_is_Some. destruct (decide (dep_String d = id)); auto.
    + constructor; [|constructor].
      destruct (Hnew _ _ Hd); destruct d; try discriminate; simpl;
        rewrite lookup_insert_eq; eauto.
Qed.

Lemma init_services_registered new ss r r' :
  (∀ s d, new s = Ok d → ∃ q, d = CatalogServiceQuery q) →
  Forall (registered r) (Runner.dependencies r) →
  init_services new ss r = Ok r' →
  Forall (registered r') (Runner.dependencies r').
Proof.
  intros Hnew. revert r. induction ss as [|s ss IH]; intros r Hr; simpl.
  - by intros [= <-].
  - destruct (new _) as [d|err] eqn:Hd; simpl; [|done].
    apply Hnew in Hd as [q ->].
    apply IH. simpl. apply Forall_app. split.
    + eapply Forall_impl; [exact Hr|]. intros d0. apply registered_mono; simpl; [done|].
      intros id. rewrite lookup_insert_is_Some.
      destruct (decide (dep_String (CatalogServiceQuery q) = id)); auto.
    + constructor; [|constructor]. simpl. rewrite lookup_insert_eq. eauto.
Qed.

Lemma for_each_no_panic {A S} (body : S → A → Outcome (Flow S)) s l :
  (∀ s a, panics (body s a) = false) → panics (for_each body s l) = false.
Proof.
  intros Hbody. revert s. induction l as [|a l IH]; intros s; simpl; [done|].
  specialize (Hbody s a). destruct (body s a) as [[s'|s' err]|msg]; auto.
Qed.

(** In a runner set up by [NewRunner], whatever data is received later,
    every dependency of the list is a consul, a vault or a service query
    and has its entry in the configuration map [Run] reads for it. So
    [appendPrefixes] never dereferences a nil configuration: on such a
    runner it does not panic, on any data. *)
Theorem init_registers environ0 cfg once r0 (deliveries : list (Dependency * Payload)) :
  NewRunner environ0 cfg once = Ok r0 →
  let r := foldl (λ r dd, Receive r dd.1 dd.2) r0 deliveries in
  Forall (registered r) (Runner.dependencies r)
  ∧ ∀ d env data, d ∈ Runner.dependencies r → is_kv d = true →
      panics (appendPrefixes r env d data) = false.
Proof.
  intros Hinit r.
  assert (Hreg0 : Forall (registered r0) (Runner.dependencies r0)).
  { unfold NewRunner, init in Hinit.
    destruct (init_prefixes _ NewKVListQuery _ _) as [r1|] eqn:H1; simpl in Hinit; [|done].
    destruct (init_services _ _ r1) as [r2|] eqn:H2; simpl in Hinit; [|done].
    apply init_prefixes_registered in H1;
      [|intros q d; unfold NewKVListQuery; destruct (parseKVList q); simpl;
        intros [= <-]; auto|constructor].
    apply init_services_registered in H2; [| |done];
      [|intros q d; unfold NewCatalogServiceQuery; destruct (parseCatalogService q);
        simpl; intros [= <-]; eauto].
    apply init_prefixes_registered in Hinit; [done| |done].
    intros q d; unfold NewVaultReadQuery; destruct (parseVaultRead q); simpl;
      intros [= <-]; auto. }
  assert (Hsame : Runner.dependencies r = Runner.dependencies r0
                  ∧ Runner.configPrefixMap r = Runner.configPrefixMap r0
                  ∧ Runner.configServiceMap r = Runner.configServiceMap r0).
  { unfold r. clear. revert r0.
    induction deliveries as [|[d x] l IH]; intros r0; simpl; [done|].
    destruct (IH (Receive r0 d x)) as (-> & -> & ->). done. }
  destruct Hsame as (Hd & Hp & Hs).
  assert (Hreg : Forall (registered r) (Runner.dependencies r)).
  { rewrite Hd. eapply Forall_impl; [exact Hreg0|]. intros d.
    apply registered_mono; intros id; by rewrite ?Hp, ?Hs. }
  split; [exact Hreg|]. intros d env data Hin Hk.
  rewrite Forall_forall in Hreg. specialize (Hreg d Hin).
  destruct d; try discriminate. unfold registered in Hreg.
  destruct Hreg as [cp Hcp].
  destruct data; try done. unfold appendPrefixes. rewrite Hcp.
  apply for_each_no_panic. intros e pair. unfold prefix_pair. rewrite Hcp.
  destruct (GoString.TrimSpace_is_empty _); [done|].
  destruct (PrefixConfig.NoPrefix cp) as [[]|]; simpl;
    destruct (if StringPresent _ then _ else _) as [key [err|]]; done.
Qed.

(** ** appendSecrets *)

Lemma foldl_insert_lookup {A} (g : string → A → option string)
    (l : list (string * A)) (env : gmap string string) K :
  NoDup (l.*1) →
  foldl (λ e kv, match g kv.1 kv.2 with
                 | Some v => <[kv.1 := v]> e
                 | None => e
                 end) env l !! K =
  match (list_to_map l : gmap string A) !! K ≫= g K with
  | Some v => Some v
  | None => env !! K
  end.
Proof.
  revert env. induction l as [|[k a] l IH]; intros env; simpl; [done|].
  intros [Hk Hl]%NoDup_cons. rewrite IH by done.
  destruct (decide (k = K)) as [->|Hne].
  - rewrite lookup_insert_eq, (not_elem_of_list_to_map_1 _ _ Hk). simpl.
    destruct (g K a); [by rewrite lookup_insert_eq|done].
  - rewrite lookup_insert_ne by done.
    destruct (list_to_map l !! K ≫= g K); [done|].
    destruct (g k a); [by rewrite lookup_insert_ne|done].
Qed.

Lemma range_of_map o {A} (m : gmap string A) :
  NoDup (range_of o m).*1 ∧ (list_to_map (range_of o m) : gmap string A) = m.
Proof.
  pose proof (range_perm o A m) as Hp.
  assert (Hnd : NoDup (range_of o m).*1).
  { rewrite Hp. apply NoDup_fst_map_to_list. }
  split; [done|].
  rewrite (list_to_map_proper _ _ Hnd Hp). apply list_to_map_to_list.
Qed.

(** A secret without prefix, format or key listing, in a runner that
    neither sanitizes nor upcases: in whatever order the map is visited,
    the environment gets exactly the string entries with a key that is
    not blank, under their own keys, and keeps its other variables; nil
    and other values are left out and no error is returned. *)
Theorem appendSecrets_plain r o environ env d s cp valueMap :
  Runner.configPrefixMap r !! dep_String d = Some cp →
  PrefixConfig.NoPrefix cp = Some true →
  StringPresent (PrefixConfig.Format cp) = false →
  PrefixConfig.Keys cp = None →
  BoolVal (Config.Sanitize (Runner.config r)) = false →
  BoolVal (Config.Upcase (Runner.config r)) = false →
  secret_valueMap (Secret.Data s) = Done valueMap →
  appendSecrets r o environ env d (SecretData s)
  = Done (plain_strings valueMap ∪ env, None).
Proof.
  intros Hcp Hnp Hfmt Hkeys Hsan Hup Hvm.
  unfold appendSecrets, secret_setup. rewrite Hvm, Hcp. simpl.
  rewrite Hkeys, Hfmt. simpl.
  set (g := λ (k : string) (v : value),
         match v with
         | VString val => if GoString.TrimSpace_is_empty k then None else Some val
         | _ => None
         end).
  rewrite (for_each_Next _ (λ e kv, match g kv.1 kv.2 with
                                    | Some v => <[kv.1 := v]> e
                                    | None => e
                                    end)).
  - f_equal. f_equal. apply map_eq. intros K.
    destruct (range_of_map o valueMap) as [Hnd Hmap].
    rewrite foldl_insert_lookup, Hmap by done.
    rewrite lookup_union. unfold plain_strings.
    rewrite lookup_omap, map_lookup_filter. unfold g. cbn [fst].
    destruct (valueMap !! K) as [v|]; simpl; [|by destruct (env !! K)].
    destruct (GoString.TrimSpace_is_empty K); simpl;
      destruct v; simpl; by destruct (env !! K).
  - intros e [k v]. unfold secret_entry, g. cbn [fst snd].
    destruct (GoString.TrimSpace_is_empty k); [by destruct v|].
    destruct v; simpl; try done;
      unfold secret_emit, upcase_key, sanitize_key;
      rewrite Hnp, Hfmt, ?Hsan, ?Hup; done.
Qed.

Lemma for_each_inv {A S} (P : S → Prop) (body : S → A → Outcome (Flow S)) l s s' e :
  (∀ s a, a ∈ l → P s →
     match body s a with
     | Done (Next s') | Done (Return s' _) => P s'
     | Panic _ => True
     end) →
  P s → for_each body s l = Done (s', e) → P s'.
Proof.
  revert s. induction l as [|a l IH]; intros s Hbody Hs; simpl.
  { by intros [= <- _]. }
  pose proof (Hbody s a (list_elem_of_here _ _) Hs) as Ha.
  destruct (body s a) as [[s1|s1 err]|msg]; [|by intros [= <- _]|done].
  apply IH; [|done]. intros s0 a0 Ha0. apply Hbody. by apply list_elem_of_further.
Qed.

(** Whatever the prefix, the formats and the key listing, a value that
    [appendSecrets] writes into the environment is a string value held
    in the secret's map under a key that is not blank: nil values and
    values of another type are never emitted, and the variables already
    there are only overwritten, not removed. *)
Theorem appendSecrets_only_strings r o environ env d s valueMap env' err :
  secret_valueMap (Secret.Data s) = Done valueMap →
  appendSecrets r o environ env d (SecretData s) = Done (env', err) →
  (∀ K, is_Some (env !! K) → is_Some (env' !! K))
  ∧ ∀ K v, env' !! K = Some v →
      env !! K = Some v
      ∨ ∃ k, valueMap !! k = Some (VString v) ∧ GoString.TrimSpace_is_empty k = false.
Proof.
  intros Hvm. unfold appendSecrets, secret_setup. rewrite Hvm. simpl.
  destruct (Runner.configPrefixMap r !! dep_String d) as [cp|]; [|done].
  destruct (if _ && _ then _ else _) as [keyFormats|]; simpl; [|done].
  set (P := λ e : gmap string string,
         (∀ K, is_Some (env !! K) → is_Some (e !! K))
         ∧ ∀ K v, e !! K = Some v →
             env !! K = Some v
             ∨ ∃ k, valueMap !! k = Some (VString v)
                    ∧ GoString.TrimSpace_is_empty k = false).
  apply (for_each_inv P); [|by split; auto].
  intros e [k value] Hin HP. unfold secret_entry. cbn [fst snd].
  assert (Hk : valueMap !! k = Some value).
  { apply elem_of_map_to_list. by rewrite <- (range_perm o). }
  destruct (GoString.TrimSpace_is_empty k) eqn:Hblank; [done|].
  destruct (is_nil (Some value)); [done|].
  destruct (if negb _ && _ then _ else _) as [[[keys [err0|]]|]|msg]; simpl; try done.
  destruct (for_each _ e keys) as [[e1 err1]|] eqn:Hinner; simpl; [|done].
  assert (HP1 : P e1).
  { revert Hinner. apply (for_each_inv P); [|done].
    intros e0 key _ [HP0 HP0']. unfold secret_emit.
    destruct (if _ || _ then _ else _) as [key1|err2]; [|by split].
    destruct (if StringPresent _ then _ else _) as [key2 [err2|]]; [by split|].
    destruct value; try by split. split.
    - intros K HK. rewrite lookup_insert_is_Some.
      destruct (decide (upcase_key (Runner.config r)
                          (sanitize_key (Runner.config r) key2) = K)); auto.
    - intros K v. rewrite lookup_insert_Some. intros [[_ <-]|[_ HK]]; eauto. }
  by destruct err1.
Qed.

(** A prefix with an empty key listing and no format emits nothing: every
    entry of the secret is skipped as not listed, the environment is
    returned as it was, without error (after the assertions on the
    payload, which can still panic). *)
Theorem appendSecrets_empty_listing r o environ env d s cp :
  Runner.configPrefixMap r !! dep_String d = Some cp →
  PrefixConfig.Keys cp = Some [] →
  StringPresent (PrefixConfig.Format cp) = false →
  appendSecrets r o environ env d (SecretData s)
  = secret_valueMap (Secret.Data s) ≫= λ _, Done (env, None).
Proof.
  intros Hcp Hkeys Hfmt. unfold appendSecrets, secret_setup.
  destruct (secret_valueMap _) as [valueMap|]; simpl; [|done].
  rewrite Hcp, Hkeys, Hfmt. simpl.
  rewrite (for_each_Next _ (λ e _, e)).
  - f_equal. f_equal. induction (range_of o valueMap); simpl; auto.
  - intros e [k v]. unfold secret_entry. cbn [fst snd].
    destruct (GoString.TrimSpace_is_empty k); [done|].
    destruct (is_nil (Some v)); [done|]. by rewrite lookup_empty.
Qed.

Lemma range_of_empty o {A} : range_of o (∅ : gmap string A) = [].
Proof.
  apply Permutation_nil_r. rewrite (range_perm o). by rewrite map_to_list_empty.
Qed.

(** A KV-v2 secret is handled as the map it holds under ["data"]: the
    result is that of the secret made of that map alone (when that map
    is not itself of the KV-v2 shape). When ["data"] is absent or nil the
    secret counts as deleted: nothing is emitted and no error is
    returned. *)
Theorem appendSecrets_kv2 r o environ env d s :
  isVaultKv2 (Secret.Data s) = Done true →
  (∀ inner, Secret.Data s !! "data" = Some (VMap inner) →
            isVaultKv2 inner = Done false →
            appendSecrets r o environ env d (SecretData s)
            = appendSecrets r o environ env d (SecretData (Secret.mk inner)))
  ∧ (is_nil (Secret.Data s !! "data") = true →
     ∀ env' err, appendSecrets r o environ env d (SecretData s) = Done (env', err) →
                 env' = env ∧ err = None).
Proof.
  intros Hkv2. split.
  - intros inner Hdata Hinner. unfold appendSecrets, secret_setup, secret_valueMap.
    simpl. rewrite Hkv2, Hinner. simpl. by rewrite Hdata.
  - intros Hnil env' err. unfold appendSecrets, secret_setup, secret_valueMap.
    rewrite Hkv2. simpl.
    assert (Hvm : match Secret.Data s !! "data" with
                  | None | Some VNil => Done (∅ : gmap string value)
                  | Some (VMap inner) => Done inner
                  | Some _ => Panic "interface conversion: interface {} is not map[string]interface {}"
                  end = Done ∅).
    { destruct (Secret.Data s !! "data") as [[]|]; done. }
    rewrite Hvm. simpl.
    destruct (Runner.configPrefixMap r !! dep_String d) as [cp|]; [|done].
    destruct (if _ && _ then _ else _) as [keyFormats|]; simpl; [|done].
    rewrite range_of_empty. simpl. by intros [= <- <-].
Qed.

(** ** appendServices *)

Lemma append_inj_l (s a b : string) : s ++ a = s ++ b → a = b.
Proof. induction s as [|c s IH]; simpl; [done|]. intros [= ?]. auto. Qed.

Lemma serKV_plain cs ser :
  no_formats cs = true → serKV_of cs ser = Ok (service_fields ser).
Proof.
  unfold no_formats, serKV_of, service_key, service_fields.
  destruct cs as [c|]; [|done].
  rewrite !andb_true_iff, !negb_true_iff. intros [[[[-> ->] ->] ->] ->]. done.
Qed.

(** A service with no format of its own, in a runner that neither
    sanitizes nor upcases: each entry lays its five variables,
    [name/id], [name/name], [name/address], [name/tag] (the tags joined
    by commas) and [name/port] (in decimal), over the environment, the
    later entries over the earlier ones, in whatever order the entry's
    map is visited, and no error is returned. *)
Theorem appendServices_plain r o env d typed :
  no_formats (Runner.configServiceMap r !! dep_String d) = true →
  BoolVal (Config.Sanitize (Runner.config r)) = false →
  BoolVal (Config.Upcase (Runner.config r)) = false →
  appendServices r o env d (CatalogServices typed)
  = Done (foldl (λ e ser, service_fields ser ∪ e) env typed, None)
  ∧ ∀ ser,
      let name := CatalogService.ServiceName ser in
      service_fields ser !! (name ++ "/id") = Some (CatalogService.ServiceID ser)
      ∧ service_fields ser !! (name ++ "/name") = Some name
      ∧ service_fields ser !! (name ++ "/address")
        = Some (CatalogService.ServiceAddress ser)
      ∧ service_fields ser !! (name ++ "/tag")
        = Some (GoString.Join (CatalogService.ServiceTags ser) ",")
      ∧ service_fields ser !! (name ++ "/port")
        = Some (GoString.Itoa (CatalogService.ServicePort ser)).
Proof.
  intros Hfmt Hsan Hup. split.
  - unfold appendServices. apply for_each_Next. intros e ser.
    unfold service_entry. rewrite (serKV_plain _ _ Hfmt). do 2 f_equal.
    set (serKV := service_fields ser).
    assert (Hpair : ∀ e l, foldl (service_pair (Runner.config r)) e l
              = foldl (λ e (kv : string * string),
                         match Some kv.2 with
                         | Some v => <[kv.1 := v]> e
                         | None => e
                         end) e l).
    { intros e0 l. revert e0. induction l as [|kv l IH]; intros e0; simpl; [done|].
      rewrite IH. unfold service_pair, upcase_key, sanitize_key.
      by rewrite Hsan, Hup. }
    rewrite Hpair. apply map_eq. intros K.
    destruct (range_of_map o serKV) as [Hnd Hmap].
    rewrite (foldl_insert_lookup (λ _ v, Some v)), Hmap, lookup_union by done.
    destruct (serKV !! K); simpl; by destruct (e !! K).
  - intros ser name. unfold service_fields. fold name.
    repeat split;
      repeat first
        [ apply lookup_insert_eq
        | rewrite lookup_insert_ne
            by (intros Heq; apply append_inj_l in Heq; discriminate) ].
Qed.

(** ** applyConfigEnv *)

(** [combineLists] keeps its first list as it is and adds, in order, the
    values of the second that the first does not hold: a value is in the
    result exactly when it is in one of the lists, and the result has no
    duplicate when neither list has. *)
Theorem combineLists_spec (a b : list string) :
  (∀ x, x ∈ combineLists a b ↔ x ∈ a ∨ x ∈ b)
  ∧ take (length a) (combineLists a b) = a
  ∧ combineLists a [] = a
  ∧ (NoDup a → NoDup b → NoDup (combineLists a b)).
Proof.
  unfold combineLists. repeat split.
  - rewrite elem_of_app, list_elem_of_filter. intros [?|[_ ?]]; auto.
  - rewrite elem_of_app, list_elem_of_filter.
    destruct (decide (x ∈ a)); intros [?|?]; auto.
  - by rewrite take_app_length.
  - by rewrite filter_nil, app_nil_r.
  - intros Ha Hb. apply NoDup_app. repeat split; [done| |by apply NoDup_filter].
    intros x Hx [Hnot _]%list_elem_of_filter. done.
Qed.

Lemma SplitN_has_eq s :
  match GoString.SplitN_eq_2 s with
  | [_] => has_eq s = false
  | [_; _] => has_eq s = true
  | _ => False
  end.
Proof.
  induction s as [|c s IH]; simpl; [done|].
  destruct (Ascii.eqb c "="); simpl; [done|].
  by destruct (GoString.SplitN_eq_2 s) as [|a [|b [|? ?]]].
Qed.

Lemma parse_custom_panics entries :
  panics (parse_custom entries) = existsb (λ v, negb (has_eq v)) entries.
Proof.
  induction entries as [|v entries IH] using rev_ind; [done|].
  unfold parse_custom in *. rewrite foldl_app, existsb_app. simpl.
  rewrite orb_false_r, <- IH. pose proof (SplitN_has_eq v) as Hv.
  destruct (foldl _ _ entries) as [custom|msg]; simpl; [|done].
  destruct (GoString.SplitN_eq_2 v) as [|a [|b [|? ?]]]; try done; by rewrite Hv.
Qed.

(** [applyConfigEnv] panics exactly when an entry of [exec.env.custom]
    has no [=] (there is no [list[1]] to read), whatever the environment
    and the other settings. *)
Theorem applyConfigEnv_panics_iff r env :
  panics (applyConfigEnv r env) = true ↔
  ∃ v, v ∈ EnvConfig.Custom (ExecConfig.Env (Config.Exec (Runner.config r)))
       ∧ has_eq v = false.
Proof.
  assert (Hp : panics (applyConfigEnv r env)
               = panics (parse_custom
                   (EnvConfig.Custom (ExecConfig.Env (Config.Exec (Runner.config r)))))).
  { unfold applyConfigEnv. destruct (parse_custom _); simpl; [|done].
    destruct (BoolVal _); [by case_bool_decide|done]. }
  rewrite Hp, parse_custom_panics, existsb_exists.
  setoid_rewrite negb_true_iff. setoid_rewrite list_elem_of_In. done.
Qed.

(** ** Run: the environment handed to the child, read back *)

Lemma SplitN_join k v :
  has_eq k = false → GoString.SplitN_eq_2 (k ++ "=" ++ v) = [k; v].
Proof.
  induction k as [|c k IH]; simpl; [done|].
  destruct (Ascii.eqb c "="); simpl; [done|]. intros Hk. by rewrite IH.
Qed.

Lemma SplitN_head s :
  match GoString.SplitN_eq_2 s with
  | a :: _ => has_eq a = false
  | [] => False
  end.
Proof.
  induction s as [|c s IH]; simpl; [done|].
  destruct (Ascii.eqb c "=") eqn:Hc; simpl; [done|].
  destruct (GoString.SplitN_eq_2 s) as [|a rest]; simpl; by rewrite Hc.
Qed.

Lemma inherit_snoc environ v :
  inherit (environ ++ [v]) =
  newEnv ← inherit environ;
  match GoString.SplitN_eq_2 v with
  | k :: val :: _ => Done (<[k := val]> newEnv)
  | _ => Panic "index out of range [1] with length 1"
  end.
Proof. unfold inherit. by rewrite foldl_app. Qed.

Lemma inherit_keys environ newEnv k :
  inherit environ = Done newEnv → is_Some (newEnv !! k) → has_eq k = false.
Proof.
  revert newEnv. induction environ as [|v environ IH] using rev_ind; intros newEnv.
  - intros [= <-]. rewrite lookup_empty. by intros [? ?].
  - rewrite inherit_snoc. destruct (inherit environ) as [e|]; simpl; [|done].
    pose proof (SplitN_head v) as Hv.
    destruct (GoString.SplitN_eq_2 v) as [|a [|b rest]]; try done.
    intros [= <-]. destruct (decide (a = k)) as [<-|Hne]; [done|].
    rewrite lookup_insert_ne by done. by apply IH.
Qed.

Lemma inherit_entries (l : list (string * string)) :
  Forall (λ kv, has_eq kv.1 = false) l →
  inherit (map (λ kv : string * string, kv.1 ++ "=" ++ kv.2) l)
  = Done (foldl (λ e kv, <[kv.1 := kv.2]> e) ∅ l).
Proof.
  induction l as [|[k v] l IH] using rev_ind; [done|].
  intros [Hl Hk]%Forall_app. apply Forall_cons_1 in Hk as [Hk _].
  rewrite map_app, foldl_app. simpl. rewrite inherit_snoc, IH by done. simpl.
  by rewrite SplitN_join.
Qed.

(** The list of [k=v] entries [Run] hands to the child, read back the way
    [Run] reads the environment of its own process, gives the map it was
    made from exactly when no key has an [=]. [Run] writes such a key as
    it is, and a child that reads it splits it at its first [=]. *)
Theorem child_environ_round_trip o (filteredEnv : gmap string string) :
  inherit (cmdEnv_of o filteredEnv) = Done filteredEnv
  ↔ ∀ k, is_Some (filteredEnv !! k) → has_eq k = false.
Proof.
  split; [intros Hread k; by apply (inherit_keys _ _ _ Hread)|].
  intros Hkeys. unfold cmdEnv_of.
  destruct (range_of_map o filteredEnv) as [Hnd Hmap].
  rewrite inherit_entries.
  - f_equal. apply map_eq. intros K.
    rewrite (foldl_insert_lookup (λ _ v, Some v) _ _ K Hnd), Hmap.
    by destruct (filteredEnv !! K).
  - apply Forall_forall. intros [k v] Hin. simpl. apply Hkeys. exists v.
    rewrite <- Hmap. by apply elem_of_list_to_map_1.
Qed.

End Further.

(** * Further properties of Parse *)

Section Rewriting.

(** ** The deprecated keys *)

Lemma deprecations_retire parsed :
  deprecations parsed =
  retire "token" (move_under "consul" "token")
    (retire "timeout" (move_under "exec" "kill_timeout")
       (retire "ssl"
          (λ ssl p, move_under "vault" "ssl" ssl (move_under "consul" "ssl" ssl p))
          (retire "retry"
             (λ retry p,
                let r := VMap (<["backoff" := retry]> (<["max_backoff" := retry]> ∅)) in
                move_under "vault" "retry" r (move_under "consul" "retry" r p))
             (retire "splay" (move_under "exec" "splay")
                (delete "path" (retire "auth" (move_under "consul" "auth") parsed)))))).
Proof. reflexivity. Qed.

Lemma retire_gone key move p : retire key move p !! key = None.
Proof.
  unfold retire. destruct (p !! key) eqn:Hk; [apply lookup_delete_eq|done].
Qed.

Lemma retire_lookup key move p k :
  k ≠ key → (∀ v q, move v q !! k = q !! k) →
  retire key move p !! k = p !! k.
Proof.
  intros Hne Hmove. unfold retire. destruct (p !! key); [|done].
  by rewrite lookup_delete_ne, Hmove.
Qed.

Lemma move_under_lookup stanza name v p k :
  k ≠ stanza → move_under stanza name v p !! k = p !! k.
Proof. intros Hne. unfold move_under. by rewrite lookup_insert_ne. Qed.

Lemma move_under_holds stanza name v p : holds (move_under stanza name v p) stanza name v.
Proof.
  eexists. unfold move_under. rewrite lookup_insert_eq. split; [done|].
  apply lookup_insert_eq.
Qed.

Lemma move_under_keeps st n w p stanza name v :
  st ≠ stanza ∨ n ≠ name →
  holds p stanza name v → holds (move_under st n w p) stanza name v.
Proof.
  intros Hne (m & Hm & Hv). unfold holds, move_under, map_or_new.
  destruct (decide (st = stanza)) as [->|Hst].
  - rewrite lookup_insert_eq, Hm. eexists. split; [done|].
    destruct Hne as [?|Hn]; [done|]. by rewrite lookup_insert_ne.
  - rewrite lookup_insert_ne by done. eauto.
Qed.

Lemma retire_keeps key move p stanza name v :
  key ≠ stanza →
  (∀ w q, holds q stanza name v → holds (move w q) stanza name v) →
  holds p stanza name v → holds (retire key move p) stanza name v.
Proof.
  intros Hne Hmove Hp. unfold retire. destruct (p !! key); [|done].
  destruct (Hmove v0 p Hp) as (m & Hm & Hv). exists m.
  by rewrite lookup_delete_ne.
Qed.

Lemma delete_keeps key p stanza name v :
  key ≠ stanza → holds p stanza name v → holds (delete key p) stanza name v.
Proof. intros Hne (m & Hm & Hv). exists m. by rewrite lookup_delete_ne. Qed.

Lemma retire_moves key move p stanza name v w :
  key ≠ stanza → p !! key = Some w →
  holds (move w p) stanza name v → holds (retire key move p) stanza name v.
Proof.
  intros Hne Hk (m & Hm & Hv). unfold retire. rewrite Hk. exists m.
  by rewrite lookup_delete_ne.
Qed.

Ltac untouched :=
  repeat first
    [ rewrite retire_lookup
        by first [ discriminate
                 | intros; rewrite ?move_under_lookup by discriminate; reflexivity ]
    | rewrite lookup_delete_ne by discriminate ].

Ltac kept :=
  repeat first
    [ apply retire_keeps;
        [ discriminate
        | intros; repeat (apply move_under_keeps;
                            [first [left; discriminate | right; discriminate]|]);
          assumption
        | ]
    | apply delete_keeps; [discriminate|] ].

(** The rewriting of the deprecated top-level keys leaves none of them at
    the top level, and moves each value to its new place: [auth] and
    [token] under [consul], [splay] under [exec], [timeout] to
    [exec.kill_timeout], [ssl] under both [consul] and [vault], and
    [retry] as the [backoff] and [max_backoff] of a [retry] stanza under
    both. [path] is dropped. *)
Theorem deprecations_spec parsed :
  (∀ k, k ∈ deprecated_keys → deprecations parsed !! k = None)
  ∧ (∀ v, parsed !! "auth" = Some v → holds (deprecations parsed) "consul" "auth" v)
  ∧ (∀ v, parsed !! "token" = Some v → holds (deprecations parsed) "consul" "token" v)
  ∧ (∀ v, parsed !! "splay" = Some v → holds (deprecations parsed) "exec" "splay" v)
  ∧ (∀ v, parsed !! "timeout" = Some v →
          holds (deprecations parsed) "exec" "kill_timeout" v)
  ∧ (∀ v, parsed !! "ssl" = Some v →
          holds (deprecations parsed) "consul" "ssl" v
          ∧ holds (deprecations parsed) "vault" "ssl" v)
  ∧ (∀ v, parsed !! "retry" = Some v →
          let r := VMap (<["backoff" := v]> (<["max_backoff" := v]> ∅)) in
          holds (deprecations parsed) "consul" "retry" r
          ∧ holds (deprecations parsed) "vault" "retry" r).
Proof.
  rewrite deprecations_retire. split; [|repeat split].
  - intros k Hk. unfold deprecated_keys in Hk.
    repeat (apply elem_of_cons in Hk as [->|Hk]);
      [..|by apply elem_of_nil in Hk]; untouched;
      first [apply retire_gone | apply lookup_delete_eq].
  - intros v Hv. kept. eapply retire_moves; [discriminate|exact Hv|].
    apply move_under_holds.
  - intros v Hv. eapply retire_moves; [discriminate| |apply move_under_holds].
    by untouched.
  - intros v Hv. kept. eapply retire_moves; [discriminate| |apply move_under_holds].
    by untouched.
  - intros v Hv. kept. eapply retire_moves; [discriminate| |apply move_under_holds].
    by untouched.
  - kept. eapply retire_moves; [discriminate|by untouched|].
    apply move_under_keeps; [left; discriminate|]. apply move_under_holds.
  - kept. eapply retire_moves; [discriminate|by untouched|]. apply move_under_holds.
  - kept. eapply retire_moves; [discriminate|by untouched|].
    apply move_under_keeps; [left; discriminate|]. apply move_under_holds.
  - kept. eapply retire_moves; [discriminate|by untouched|]. apply move_under_holds.
Qed.

(** ** flattenKeys *)

Lemma dots_app a b : dots (a ++ b) = (dots a + dots b)%nat.
Proof. induction a as [|c a IH]; simpl; [done|]. rewrite IH. lia. Qed.

Lemma app_not_empty a b : a ≠ "" → (a ++ b)%string ≠ "".
Proof. by destruct a. Qed.

Lemma eqb_not_empty a : a ≠ "" → String.eqb a "" = false.
Proof. by destruct a. Qed.

Lemma map_imap_id (m : gmap string value) (f : string → value → option value) :
  (∀ k v, m !! k = Some v → f k v = Some v) → map_imap f m = m.
Proof.
  intros Hf. apply map_eq. intros k. rewrite map_lookup_imap.
  destruct (m !! k) as [v|] eqn:Hk; simpl; [by apply Hf|done].
Qed.

Lemma map_imap_ext_in (m : gmap string value)
    (f g : string → value → option value) :
  (∀ k v, m !! k = Some v → f k v = g k v) → map_imap f m = map_imap g m.
Proof.
  intros Hf. apply map_eq. intros k. rewrite !map_lookup_imap.
  destruct (m !! k) as [v|] eqn:Hk; simpl; [by apply Hf|done].
Qed.

Lemma flatten_unfold d (K : gset string) m parent :
  flatten (S d) K m parent =
  map_imap (λ k v,
    let mapKey := if String.eqb parent "" then k else parent ++ "." ++ k in
    if bool_decide (mapKey ∈ K) then
      match v with
      | VMaps typed =>
        match last typed with
        | Some l => Some (VMap (flatten d K l mapKey))
        | None => Some VNil
        end
      | VMap typed => Some (VMap (flatten d K typed mapKey))
      | _ => Some v
      end
    else Some v) m.
Proof. reflexivity. Qed.

(** Below a parent with a dot no key is listed, when listed keys have at
    most one dot. *)
Lemma flatten_deep d (K : gset string) m parent :
  (∀ k, k ∈ K → (dots k ≤ 1)%nat) → (1 ≤ dots parent)%nat →
  flatten d K m parent = m.
Proof.
  intros HK Hp. destruct d as [|d]; [done|]. simpl.
  apply map_imap_id. intros k v _.
  assert (parent ≠ "") as Hne by (intros ->; simpl in Hp; lia).
  rewrite (eqb_not_empty _ Hne). case_bool_decide as Hin; [|done].
  apply HK in Hin. rewrite !dots_app in Hin. simpl in Hin. lia.
Qed.

Lemma flatten_below d (K : gset string) m parent :
  (∀ k, k ∈ K → (dots k ≤ 1)%nat) → parent ≠ "" →
  flatten (S d) K m parent = flatten 1 K m parent.
Proof.
  intros HK Hne. simpl. apply map_imap_ext_in. intros k v _.
  rewrite (eqb_not_empty _ Hne). case_bool_decide as Hin; [|done].
  assert (1 ≤ dots (parent ++ "." ++ k))%nat by (rewrite !dots_app; simpl; lia).
  destruct v as [|?|typed|typed|]; try done.
  - by rewrite flatten_deep.
  - destruct (last typed); [|done]. by rewrite flatten_deep.
Qed.



(** When every listed key is a non-empty path with at most one dot, as
    the keys of [Parse] are, the descent of [flattenKeys] changes nothing
    below the second level: descending any deeper gives the same map. *)
Theorem flattenKeys_depth keys m (n : nat) :
  Forall (λ k, k ≠ "" ∧ (dots k ≤ 1)%nat) keys →
  flatten (3 + n)%nat (list_to_set keys) m "" = flattenKeys m keys.
Proof.
  intros Hkeys. rewrite Forall_forall in Hkeys. unfold flattenKeys.
  assert (∀ k, k ∈ (list_to_set keys : gset string) → (dots k ≤ 1)%nat) as HK.
  { intros k Hk. apply elem_of_list_to_set in Hk. by apply Hkeys. }
  change (3 + n)%nat with (S (S (S n))).
  rewrite (flatten_unfold (S (S n))), (flatten_unfold 2). apply map_imap_ext_in. intros k v _. cbn [String.eqb].
  case_bool_decide as Hin; [|done].
  assert (k ≠ "") as Hne by (apply elem_of_list_to_set in Hin; by apply Hkeys).
  destruct v as [|?|typed|typed|]; try done.
  - do 2 f_equal. rewrite (flatten_below (S n)), (flatten_below 1); done.
  - destruct (last typed); [|done].
    do 2 f_equal. rewrite (flatten_below (S n)), (flatten_below 1); done.
Qed.

(** ** Defaults from the environment *)

(** [antiboolFromEnv] is [boolFromEnv] negated, default included; and
    when every variable of the list is unset, empty or not a boolean, the
    default is the answer. *)
Theorem antiboolFromEnv_boolFromEnv environ list def :
  antiboolFromEnv environ list def = negb (boolFromEnv environ list (negb def))
  ∧ (Forall (λ s, Getenv environ s = "" ∨ ∃ msg, ParseBool (Getenv environ s) = Err msg)
       list →
     boolFromEnv environ list def = def ∧ antiboolFromEnv environ list def = def).
Proof.
  split.
  - induction list as [|s list IH]; simpl; [by rewrite negb_involutive|].
    destruct (negb (String.eqb (Getenv environ s) "")); [|done].
    by destruct (ParseBool _).
  - induction 1 as [|s list Hs _ IH]; simpl; [done|].
    destruct Hs as [->|[msg ->]]; [done|].
    by destruct (negb (String.eqb (Getenv environ s) "")).
Qed.

End Rewriting.

(** ** The properties at concrete inputs *)

Import Sample.






(** C3. A tick on which the data filed for a consul prefix is not a list
    of pairs: [appendPrefixes] returns its error, [Run] does not look at
    it, builds the empty environment, and replaces the running child. *)
Theorem wrong_shape_restarts_child :
  (∃ err, appendPrefixes Ex.kv_runner_wrong_shape ∅ (KVListQuery "app")
            (SecretData (Secret.mk {["k" := VString "v"]}))
          = Done (∅, Some err))
  ∧ Run Ex.kv_runner_wrong_shape ascending ["PATH=/x"] =
    let c := Child.mk ["env"] ["PATH=/x"] in
    Done (with_child (with_env Ex.kv_runner_wrong_shape (Some ∅)) (Some c),
          [StopChild Ex.old_child; StartChild c], Started c).
Proof. split; [eexists|]; vm_compute; reflexivity. Qed.

(** C4. A format that does not parse is not an error: the key it gives is
    the empty string, and the child is replaced with a variable of that
    name. A format that fails at execution is an error of
    [appendPrefixes], which [Run] does not look at: the child is replaced
    with the environment built without the pair. *)
Theorem template_failure_restarts_child :
  (applyFormatTemplate "{{" "k" = (EmptyString, None)
   ∧ Run (Ex.kv_runner_format "{{") ascending ["PATH=/x"] =
     let c := Child.mk ["env"] ["PATH=/x"; "=v"] in
     Done (with_child
             (with_env (Ex.kv_runner_format "{{") (Some {[EmptyString := "v"]}))
             (Some c),
           [StopChild Ex.old_child; StartChild c], Started c))
  ∧ ((∃ err, applyFormatTemplate "{{replaceKey}}" "k" = (EmptyString, Some err))
     ∧ (∃ err, appendPrefixes (Ex.kv_runner_format "{{replaceKey}}") ∅
                 (KVListQuery "app") (KeyPairs [KeyPair.mk "k" "v"])
               = Done (∅, Some err))
     ∧ Run (Ex.kv_runner_format "{{replaceKey}}") ascending ["PATH=/x"] =
       let c := Child.mk ["env"] ["PATH=/x"] in
       Done (with_child
               (with_env (Ex.kv_runner_format "{{replaceKey}}") (Some ∅))
               (Some c),
             [StopChild Ex.old_child; StartChild c], Started c)).
Proof.
  repeat split; try eexists; vm_compute; reflexivity.
Qed.

(** The fourth scenario of the specification: of [PATH], [SECRET_A] and
    [HOME], the allowlist [PATH, HOME] and the denylist [HO*] leave
    [PATH]. *)
Example allow_deny_scenario :
  childEnv Ex.scenario4 ["PATH=/x"; "SECRET_A=1"; "HOME=/h"] ∅
  = Done {["PATH" := "/x"]}.
Proof. vm_compute. reflexivity. Qed.

Lemma filters_on_merged_env_witness :
  ∃ res,
    childEnv Ex.deny_runner ["PATH=/x"; "SECRET_B=2"] {["SECRET_A" := "1"]}
    = Done res
    ∧ res !! "PATH" = Some "/x" ∧ res !! "SECRET_A" = None
    ∧ res !! "SECRET_B" = None.
Proof.
  destruct (filters_on_merged_env Ex.deny_runner ["PATH=/x"; "SECRET_B=2"]
              {["SECRET_A" := "1"]} ∅ {["SECRET_B" := "2"; "PATH" := "/x"]}
              eq_refl eq_refl eq_refl) as (res & Hres & _ & _).
  exists res. split; [exact Hres|].
  vm_compute in Hres. injection Hres as <-. repeat split; reflexivity.
Defined.

(** C1, counterexample. The variable [SECRET_A], emitted from the consul
    prefix, matches the denylist glob [SECRET_*]: it is not handed to the
    child, so emitted keys do not bypass the filters. *)
Lemma emitted_key_filtered_counterexample :
  ∃ r' c,
    Run Ex.deny_runner ascending ["PATH=/x"] = Done (r', [StartChild c], Started c)
    ∧ Runner.env r' = Some {["SECRET_A" := "1"]}
    ∧ Child.Env c = ["PATH=/x"]
    ∧ childEnv Ex.deny_runner ["PATH=/x"] {["SECRET_A" := "1"]}
      = Done {["PATH" := "/x"]}.
Proof. do 2 eexists. repeat split; vm_compute; reflexivity. Qed.

Lemma pristine_child_env_witness :
  ∃ res,
    (∀ environ', childEnv (Ex.pristine_runner None []) environ' {["k" := "v"]}
                 = Done res)
    ∧ res = {["HOME" := "/c"]} ∪ {["k" := "v"]}.
Proof.
  destruct (pristine_child_env (Ex.pristine_runner None []) {["k" := "v"]}
              {["HOME" := "/c"]} eq_refl eq_refl)
    as (res & Hres & _ & _ & Hfilters).
  exists res. split; [exact Hres|].
  exact (proj2 (Hfilters eq_refl) eq_refl eq_refl).
Defined.

(** C2, counterexample. A pristine runner with [exec.env.pristine] set
    and the custom entry [HOME=/c], after the pair (k, v) is received:
    the child is given [HOME=/c] alone, not the union of the custom and
    the emitted entries. *)
Lemma pristine_drops_emitted_counterexample :
  ∃ r' c,
    Run (Ex.pristine_runner (Some true) []) ascending ["PATH=/x"]
    = Done (r', [StartChild c], Started c)
    ∧ Runner.env r' = Some {["k" := "v"]}
    ∧ Child.Env c = ["HOME=/c"]
    ∧ childEnv (Ex.pristine_runner (Some true) []) ["PATH=/x"] {["k" := "v"]}
      ≠ Done ({["HOME" := "/c"]} ∪ {["k" := "v"]}).
Proof.
  do 2 eexists. repeat split; try (vm_compute; reflexivity).
  intros Heq. apply (f_equal (λ o, match o with
                                   | Done m => m !! "k"
                                   | Panic _ => None
                                   end)) in Heq.
  vm_compute in Heq. discriminate.
Qed.

Lemma secret_overrides_kv_witness :
  NewRunner [] Ex.precedence_config false = Ok Ex.precedence_runner
  ∧ let r1 := Receive (Receive Ex.precedence_runner (KVListQuery "app") Ex.token_wrong)
                (VaultReadQuery "secret/app") Ex.token_right in
    build r1 ascending [] ∅ (Runner.dependencies r1)
    = Done (Built {["TOKEN" := "right"]})
    ∧ ({["TOKEN" := "right"]} : gmap string string) !! "TOKEN" = Some "right".
Proof.
  assert (Hinit : NewRunner [] Ex.precedence_config false = Ok Ex.precedence_runner)
    by (vm_compute; reflexivity).
  split; [exact Hinit|]. split; [vm_compute; reflexivity|].
  apply (proj2 (secret_overrides_kv [] [] Ex.precedence_config false
                  Ex.precedence_runner [] ascending (KVListQuery "app")
                  (VaultReadQuery "secret/app") Ex.token_wrong Ex.token_right
                  [KVListQuery "app"] [] Hinit eq_refl eq_refl eq_refl)
           {["TOKEN" := "right"]} "TOKEN" "wrong" "right").
  - vm_compute. reflexivity.
  - exists {["TOKEN" := "wrong"]}, None. split; vm_compute; reflexivity.
  - exists {["TOKEN" := "right"]}, None. split; vm_compute; reflexivity.
  - intros d v' Hd. by apply elem_of_nil in Hd.
Defined.

(** C5, counterexample. The consul prefix [app] and the secrets
    [secret/a] and [secret/b] all emit [token]. The pair made of the
    prefix and of [secret/a] emits the same key, and the built
    environment gives it the value of [secret/b], registered later, not
    the value of [secret/a]. *)
Lemma two_secrets_counterexample :
  NewRunner [] Ex.two_secrets_config false = Ok Ex.two_secrets_runner
  ∧ emits Ex.two_secrets_received ascending [] (KVListQuery "app") "token" "wrong"
  ∧ emits Ex.two_secrets_received ascending [] (VaultReadQuery "secret/a")
      "token" "first"
  ∧ ∃ env,
      build Ex.two_secrets_received ascending [] ∅
        (Runner.dependencies Ex.two_secrets_received) = Done (Built env)
      ∧ env !! "token" = Some "second"
      ∧ env !! "token" ≠ Some "first".
Proof.
  split; [vm_compute; reflexivity|].
  split; [exists {["token" := "wrong"]}, None; split; vm_compute; reflexivity|].
  split; [exists {["token" := "first"]}, None; split; vm_compute; reflexivity|].
  exists {["token" := "second"]}. split; [vm_compute; reflexivity|].
  split; [vm_compute; reflexivity|]. vm_compute. discriminate.
Qed.



(** C9 at a document the decoder rejects: the error is logged and the
    pointer is nil. *)
Example Must_of_rejected_document :
  Must (C := unit) "{" = (None, ["error decoding config: At 1:1: illegal char"]).
Proof. reflexivity. Qed.

(** The first and the third scenario of the specification. *)
Example prefix_upcase_sanitize_scenario :
  build Ex.scenario1 ascending [] ∅ (Runner.dependencies Ex.scenario1)
  = Done (Built (<["APP_DB_HOST" := "db1"]> {["APP_DB_USER_NAME" := "x"]})).
Proof. vm_compute. reflexivity. Qed.

Example kv2_unwrap_scenario :
  appendSecrets (Ex.secret_runner None) ascending [] ∅
    (VaultReadQuery "secret/app") (SecretData Ex.kv2_payload)
  = Done ({["k" := "v"]}, None).
Proof. vm_compute. reflexivity. Qed.

(** ** The further properties at concrete inputs *)

Lemma Run_not_ready_witness :
  ∃ r' effects res,
    Run Ex.kv_runner ascending ["PATH=/x"] = Done (r', effects, res)
    ∧ r' = Ex.kv_runner ∧ effects = []
    ∧ (res = NotReady ∨ ∃ msg, res = Failed msg).
Proof.
  assert (Hrun : Run Ex.kv_runner ascending ["PATH=/x"]
                 = Done (Ex.kv_runner, [], NotReady)) by (vm_compute; reflexivity).
  eexists _, _, _. split; [exact Hrun|].
  apply (Run_not_ready Ex.kv_runner ascending ["PATH=/x"] _ _ _); [|exact Hrun].
  exists (KVListQuery "app"). split; [apply list_elem_of_here|reflexivity].
Defined.

Lemma Start_loop_single_flight_witness :
  ∃ st' signals,
    Start_loop ascending ["PATH=/x"] (Ex.kv_runner, None) Ex.two_deliveries
    = Done (st', signals, Returned)
    ∧ signals =
      [Child_effect (StartChild (Child.mk ["env"] ["k=v"; "PATH=/x"]));
       Child_effect (StopChild (Child.mk ["env"] ["k=v"; "PATH=/x"]));
       Child_effect (StartChild (Child.mk ["env"] ["k=w"; "PATH=/x"]))]
    ∧ single_flight None signals = true.
Proof.
  destruct (Start_loop ascending ["PATH=/x"] (Ex.kv_runner, None) Ex.two_deliveries)
    as [[[st' signals] status]|msg] eqn:Hloop; [|vm_compute in Hloop; discriminate].
  assert (Hflight := Start_loop_single_flight _ _ _ _ _ _ _ Hloop).
  vm_compute in Hloop. injection Hloop as <- <- <-.
  eexists _, _. split; [reflexivity|]. split; [reflexivity|exact Hflight].
Defined.


Lemma init_registers_witness :
  let r := Receive (Receive Ex.precedence_runner (KVListQuery "app") Ex.token_wrong)
             (VaultReadQuery "secret/app") Ex.token_right in
  Forall (registered r) (Runner.dependencies r)
  ∧ panics (appendPrefixes r ∅ (KVListQuery "app") Ex.token_right) = false.
Proof.
  assert (Hinit : NewRunner [] Ex.precedence_config false = Ok Ex.precedence_runner)
    by (vm_compute; reflexivity).
  destruct (init_registers [] Ex.precedence_config false Ex.precedence_runner
              [(KVListQuery "app", Ex.token_wrong);
               (VaultReadQuery "secret/app", Ex.token_right)] Hinit)
    as [Hall Hquiet].
  split; [exact Hall|]. apply Hquiet; [apply list_elem_of_here|reflexivity].
Defined.

Lemma appendSecrets_plain_witness :
  appendSecrets (Ex.secret_runner None) descending [] {["old" := "x"]}
    (VaultReadQuery "secret/app") (SecretData Ex.mixed_secret)
  = Done (plain_strings (Secret.Data Ex.mixed_secret) ∪ {["old" := "x"]}, None)
  ∧ plain_strings (Secret.Data Ex.mixed_secret) = {["k" := "v"]}.
Proof.
  split; [|vm_compute; reflexivity].
  apply (appendSecrets_plain (Ex.secret_runner None) descending [] {["old" := "x"]}
           (VaultReadQuery "secret/app") Ex.mixed_secret Ex.secret_bare);
    reflexivity.
Defined.

Lemma appendSecrets_only_strings_witness :
  ∃ env' err,
    appendSecrets (Ex.secret_runner (Some true)) ascending [] {["old" := "x"]}
      (VaultReadQuery "secret/app") (SecretData Ex.colliding_secret)
    = Done (env', err)
    ∧ is_Some (env' !! "old")
    ∧ ∀ K v, env' !! K = Some v →
        ({["old" := "x"]} : gmap string string) !! K = Some v
        ∨ ∃ k, Secret.Data Ex.colliding_secret !! k = Some (VString v)
               ∧ GoString.TrimSpace_is_empty k = false.
Proof.
  assert (Hrun : appendSecrets (Ex.secret_runner (Some true)) ascending []
                   {["old" := "x"]} (VaultReadQuery "secret/app")
                   (SecretData Ex.colliding_secret)
                 = Done (<["a_b" := "1"]> {["old" := "x"]}, None))
    by (vm_compute; reflexivity).
  destruct (appendSecrets_only_strings (Ex.secret_runner (Some true)) ascending []
              {["old" := "x"]} (VaultReadQuery "secret/app") Ex.colliding_secret
              (Secret.Data Ex.colliding_secret) _ _ eq_refl Hrun)
    as [Hkeeps Honly].
  eexists _, _. split; [exact Hrun|]. split; [|exact Honly].
  apply Hkeeps. eexists. reflexivity.
Defined.

Lemma appendSecrets_empty_listing_witness :
  appendSecrets Ex.listing_runner ascending [] {["old" := "x"]}
    (VaultReadQuery "secret/app") (SecretData Ex.mixed_secret)
  = Done ({["old" := "x"]}, None).
Proof.
  exact (appendSecrets_empty_listing Ex.listing_runner ascending []
           {["old" := "x"]} (VaultReadQuery "secret/app") Ex.mixed_secret
           Ex.secret_listing eq_refl eq_refl eq_refl).
Defined.

Lemma appendSecrets_kv2_witness :
  appendSecrets (Ex.secret_runner None) ascending [] ∅
    (VaultReadQuery "secret/app") (SecretData Ex.kv2_payload)
  = appendSecrets (Ex.secret_runner None) ascending [] ∅
      (VaultReadQuery "secret/app") (SecretData (Secret.mk {["k" := VString "v"]})).
Proof.
  apply (proj1 (appendSecrets_kv2 (Ex.secret_runner None) ascending [] ∅
                  (VaultReadQuery "secret/app") Ex.kv2_payload eq_refl));
    reflexivity.
Defined.

Lemma appendServices_plain_witness :
  appendServices Ex.service_runner ascending {["old" := "x"]}
    (CatalogServiceQuery "web")
    (CatalogServices [Ex.web "web-1" "10.0.0.1"; Ex.web "web-2" "10.0.0.2"])
  = Done (service_fields (Ex.web "web-2" "10.0.0.2")
            ∪ (service_fields (Ex.web "web-1" "10.0.0.1") ∪ {["old" := "x"]}),
          None)
  ∧ service_fields (Ex.web "web-2" "10.0.0.2") !! "web/tag" = Some "blue,v2".
Proof.
  destruct (appendServices_plain Ex.service_runner ascending {["old" := "x"]}
              (CatalogServiceQuery "web")
              [Ex.web "web-1" "10.0.0.1"; Ex.web "web-2" "10.0.0.2"]
              eq_refl eq_refl eq_refl) as [Hrun Hfields].
  split; [exact Hrun|]. exact (proj1 (proj2 (proj2 (proj2 (Hfields (Ex.web "web-2" "10.0.0.2")))))).
Defined.

Lemma flattenKeys_depth_witness :
  flatten 8 (list_to_set stanza_keys) Ex.nested_document ""
  = flattenKeys Ex.nested_document stanza_keys.
Proof.
  apply (flattenKeys_depth stanza_keys Ex.nested_document 5).
  unfold stanza_keys.
  repeat (apply List.Forall_cons; [split; [discriminate|simpl; lia]|]).
  apply List.Forall_nil.
Defined.

(** The first pass of [Parse] on a document whose [consul] stanza is given
    twice: the last one stays, its [ssl] list gives way to its map, and
    the list below it, which no key lists, is left as it is. *)
Example flattenKeys_nested_document :
  flattenKeys Ex.nested_document stanza_keys
  = <["consul" :=
        VMap (<["ssl" := VMap {["cert" := VMaps [ {["deep" := VString "x"]} ]]}]>
                {["address" := VString "new"]})]>
      {["wait" := VNil]}.
Proof. vm_compute. reflexivity. Qed.

Lemma Run_settles_witness :
  ∃ r' c,
    Run Ex.deny_runner ascending ["PATH=/x"] = Done (r', [StartChild c], Started c)
    ∧ Run r' ascending ["PATH=/x"] = Done (r', [], Unchanged).
Proof.
  assert (Hrun : Run Ex.deny_runner ascending ["PATH=/x"]
                 = Done (with_child
                           (with_env Ex.deny_runner (Some {["SECRET_A" := "1"]}))
                           (Some (Child.mk ["env"] ["PATH=/x"])),
                         [StartChild (Child.mk ["env"] ["PATH=/x"])],
                         Started (Child.mk ["env"] ["PATH=/x"])))
    by (vm_compute; reflexivity).
  eexists _, _. split; [exact Hrun|].
  exact (Run_settles Ex.deny_runner ascending ["PATH=/x"] _ _ _ Hrun).
Defined.

(** A variable whose key has an [=], as a consul key may, is handed to
    the child as it is; read back, it is another variable. *)
Example key_with_eq_read_back :
  inherit (cmdEnv_of ascending {["a=b" := "v"]}) = Done {["a" := "b=v"]}.
Proof. vm_compute. reflexivity. Qed.
